(** * legendary: merging Go cover profiles and classifying source lines

    A shallow embedding of the aggregation and classification engine of
    [legendary] (the last revision of [main.go]): [ingestCoverageFile],
    [buildFileCoverage], [lineCounter], [collectCoverageContext], the
    [sort.Interface] implementations [resultsByLines] and
    [resultsByPercentage], and [printHitlist].

    Go's [int] is the 64-bit two's complement integer: it is a [Z], and every
    addition the program performs is wrapped by [wrap].  A [map[int]int] is a
    [gmap Z Z], the [map[string]*result] of the context a [gmap string result];
    every key owns its own [result], so the pointer is the map entry.
    [float64] is the primitive binary64 float. *)

From Stdlib Require Import ZArith Floats.
From stdpp Require Import gmap strings list fin_maps sorting.

Local Open Scope Z_scope.

(** ** Go integers *)

Definition min_int : Z := - 2 ^ 63.
Definition max_int : Z := 2 ^ 63 - 1.

(** Two's complement wrap-around of a 64-bit [int]. *)
Definition wrap (z : Z) : Z := (z + 2 ^ 63) mod 2 ^ 64 - 2 ^ 63.

(** [a + b] on [int]. *)
Definition addInt (a b : Z) : Z := wrap (a + b).

(** [float64(n)] for an [int] [n]. *)
Definition float64 (n : Z) : float :=
  if n <? 0 then PrimFloat.opp (PrimFloat.of_uint63 (Uint63.of_Z (- n)))
  else PrimFloat.of_uint63 (Uint63.of_Z n).

(** ** Data model *)

(** [cover.ProfileBlock] and [cover.Profile] of golang.org/x/tools/cover; the
    program reads only these fields. *)
Record ProfileBlock := mkBlock {
  StartLine : Z;
  EndLine : Z;
  Count : Z
}.

Record Profile := mkProfile {
  FileName : string;
  Blocks : list ProfileBlock
}.

Record result := mkResult {
  filename : string;
  lines : Z;
  counts : gmap Z Z;
  Hits : list Z;
  Misses : list Z;
  Ignored : list Z
}.

Record context := mkContext {
  Now : Z;
  Results : gmap string result
}.

Definition set_counts (r : result) (c : gmap Z Z) : result :=
  mkResult (filename r) (lines r) c (Hits r) (Misses r) (Ignored r).
Definition set_lines (r : result) (n : Z) : result :=
  mkResult (filename r) n (counts r) (Hits r) (Misses r) (Ignored r).
Definition add_Hit (r : result) (ln : Z) : result :=
  mkResult (filename r) (lines r) (counts r) (Hits r ++ [ln]) (Misses r) (Ignored r).
Definition add_Miss (r : result) (ln : Z) : result :=
  mkResult (filename r) (lines r) (counts r) (Hits r) (Misses r ++ [ln]) (Ignored r).
Definition add_Ignored (r : result) (ln : Z) : result :=
  mkResult (filename r) (lines r) (counts r) (Hits r) (Misses r) (Ignored r ++ [ln]).
Definition set_Results (ctx : context) (m : gmap string result) : context :=
  mkContext (Now ctx) m.
Definition set_Now (ctx : context) (t : Z) : context :=
  mkContext t (Results ctx).

(** [&result{filename: rn, counts: make(map[int]int)}] *)
Definition newResult (rn : string) : result := mkResult rn 0 ∅ [] [] [].

(** [var ctx context; ctx.Results = make(map[string]*result)] *)
Definition emptyContext : context := mkContext 0 ∅.

(** ** The outside world *)

(** What one call of [Read] on an [io.Reader] reports besides the bytes. *)
Inductive readErr := ReadOk | ReadEOF | ReadFail.

(** An opened file: the results of its successive [Read] calls; once they are
    used up the file is at its end and [Read] returns [0, io.EOF]. *)
Definition Reader : Type := list (list Byte.byte * readErr).

(** The collaborators the program calls: [cover.ParseProfiles],
    [filepath.Join], [filepath.Rel], [os.Open] and [time.Now().Unix()];
    [None] is a non-nil [err]. *)
Class World := {
  ParseProfiles : string -> option (list Profile);
  Join : string -> string -> string;
  Rel : string -> string -> option string;
  Open : string -> option Reader;
  UnixNow : Z
}.

(** ** Methods of [result] *)

Definition MissCount (rz : result) : Z := Z.of_nat (length (Misses rz)).
Definition HitCount (rz : result) : Z := Z.of_nat (length (Hits rz)).

Definition MissFraction (rz : result) : float :=
  let hc := HitCount rz in
  let mc := MissCount rz in
  PrimFloat.div (float64 mc) (float64 (addInt hc mc)).

(** ** lineCounter *)

Definition lineSep : Byte.byte := Byte.x0a.

(** [bytes.Count(buf[:c], lineSep)] *)
Definition bytesCount (chunk : list Byte.byte) : Z :=
  Z.of_nat (count_occ Byte.byte_eq_dec chunk lineSep).

(** The [for] loop of [lineCounter]: the count and the error returned. *)
Fixpoint lineCounterLoop (r : Reader) (count : Z) : Z * bool :=
  match r with
  | [] => (count, false)
  | (chunk, err) :: r' =>
      let count := addInt count (bytesCount chunk) in
      match err with
      | ReadEOF => (count, false)
      | ReadFail => (count, true)
      | ReadOk => lineCounterLoop r' count
      end
  end.

Definition lineCounter (r : Reader) : Z * bool := lineCounterLoop r 0.

(** ** ingestCoverageFile *)

(** [r.counts[ln] += pb.Count] *)
Definition addCount (cnt : gmap Z Z) (ln c : Z) : gmap Z Z :=
  <[ln := addInt (default 0 (cnt !! ln)) c]> cnt.

(** [n] turns of [for ln := ...; ln <= pb.EndLine; ln++]. *)
Fixpoint lineLoop (n : nat) (ln c : Z) (cnt : gmap Z Z) : gmap Z Z :=
  match n with
  | O => cnt
  | S n' => lineLoop n' (ln + 1) c (addCount cnt ln c)
  end.

(** The loop over the lines of one block.  When the block is not empty and
    ends at the largest [int], [ln++] wraps and [ln <= pb.EndLine] never
    fails: the loop does not return ([None]). *)
Definition addBlock (cnt : gmap Z Z) (pb : ProfileBlock) : option (gmap Z Z) :=
  if bool_decide (StartLine pb <= EndLine pb /\ max_int <= EndLine pb) then None
  else Some (lineLoop (Z.to_nat (EndLine pb - StartLine pb + 1))
               (StartLine pb) (Count pb) cnt).

(** [for ln := pb.StartLine; ln <= pb.EndLine; ln++ { r.counts[ln] += pb.Count }]
    turn by turn, with the increment of an [int]: the counts when the loop
    is left within [fuel] tests of its condition, [None] while it is still
    running. *)
Fixpoint blockLoop (fuel : nat) (ln e c : Z) (cnt : gmap Z Z) : option (gmap Z Z) :=
  match fuel with
  | O => None
  | S fuel' =>
      if ln <=? e then blockLoop fuel' (wrap (ln + 1)) e c (addCount cnt ln c)
      else Some cnt
  end.

(** [for _, pb := range p.Blocks] *)
Fixpoint addBlocks (cnt : gmap Z Z) (bs : list ProfileBlock) : option (gmap Z Z) :=
  match bs with
  | [] => Some cnt
  | pb :: bs' =>
      match addBlock cnt pb with
      | None => None
      | Some cnt' => addBlocks cnt' bs'
      end
  end.

Section Engine.
Context {W : World}.

(** [filepath.Rel(projRoot, filepath.Join(coverageRoot, p.FileName))] *)
Definition canonical (coverageRoot projRoot : string) (p : Profile) : option string :=
  Rel projRoot (Join coverageRoot (FileName p)).

(** [for _, p := range ps]: the context at the function's return, or
    [None] when a block loop does not return. *)
Fixpoint ingestProfiles (ctx : context) (coverageRoot projRoot : string)
    (ps : list Profile) : option context :=
  match ps with
  | [] => Some ctx
  | p :: ps' =>
      match canonical coverageRoot projRoot p with
      | None => Some ctx
      | Some rn =>
          let r := default (newResult rn) (Results ctx !! rn) in
          match addBlocks (counts r) (Blocks p) with
          | None => None
          | Some cnt =>
              ingestProfiles (set_Results ctx (<[rn := set_counts r cnt]> (Results ctx)))
                coverageRoot projRoot ps'
          end
      end
  end.

Definition ingestCoverageFile (ctx : context) (coverageRoot projRoot fp : string)
    : option context :=
  match ParseProfiles fp with
  | None => Some ctx
  | Some ps => ingestProfiles ctx coverageRoot projRoot ps
  end.

(** [for _, fp := range sourceFiles] of [collectCoverageContext]. *)
Fixpoint ingestFiles (ctx : context) (coverageRoot projRoot : string)
    (sourceFiles : list string) : option context :=
  match sourceFiles with
  | [] => Some ctx
  | fp :: fps =>
      match ingestCoverageFile ctx coverageRoot projRoot fp with
      | None => None
      | Some ctx' => ingestFiles ctx' coverageRoot projRoot fps
      end
  end.

(** ** buildFileCoverage *)

(** One turn of the [switch] on [c, ok := r.counts[ln]]. *)
Definition classifyLine (r : result) (ln : Z) : result :=
  match counts r !! ln with
  | None => add_Ignored r ln
  | Some c => if 0 <? c then add_Hit r ln else add_Miss r ln
  end.

(** [n] turns of [for ln := 0; ln < r.lines; ln++]. *)
Fixpoint coverLoop (n : nat) (ln : Z) (r : result) : result :=
  match n with
  | O => r
  | S n' => coverLoop n' (ln + 1) (classifyLine r ln)
  end.

(** [r] is the pointer stored at [ctx.Results[f]]: what the function writes
    through it is written to that entry. *)
Definition buildFileCoverage (ctx : context) (projRoot f : string) (r : result)
    : context :=
  match Open (Join projRoot f) with
  | None => set_Results ctx (delete f (Results ctx))
  | Some file =>
      match lineCounter file with
      | (_, true) => set_Results ctx (delete f (Results ctx))
      | (n, false) =>
          let r := set_lines r n in
          set_Results ctx (<[f := coverLoop (Z.to_nat (lines r)) 0 r]> (Results ctx))
      end
  end.

(** [for f, r := range ctx.Results { buildFileCoverage(&ctx, projRoot, f, r) }]
    with the entries met in the order [order]. *)
Definition buildAll (ctx : context) (projRoot : string)
    (order : list (string * result)) : context :=
  foldl (fun c fr => buildFileCoverage c projRoot fr.1 fr.2) ctx order.

Definition collectCoverageContext (coverageRoot projRoot : string)
    (sourceFiles : list string) : option context :=
  match ingestFiles emptyContext coverageRoot projRoot sourceFiles with
  | None => None
  | Some ctx =>
      Some (set_Now (buildAll ctx projRoot (map_to_list (Results ctx))) UnixNow)
  end.
End Engine.

(** ** escaper *)

Global Instance byte_eq_dec : EqDecision Byte.byte := Byte.byte_eq_dec.

(** [type escaper struct { r io.Reader; old []byte; debug bool }]; the
    reader is the list of the results of its [Read] calls to come. *)
Record escaper := mkEscaper {
  esc_r : Reader;
  old : list Byte.byte;
  debug : bool
}.

(** [newEscaper(r)] *)
Definition newEscaper (r : Reader) : escaper := mkEscaper r [] false.

(** [p[n] = b]; [None] is the index-out-of-range panic. *)
Definition setByte (p : list Byte.byte) (n : nat) (b : Byte.byte)
    : option (list Byte.byte) :=
  if decide (n < length p)%nat then Some (<[n := b]> p) else None.

(** [s[low:]]; [None] is the slice-bounds-out-of-range panic. *)
Definition sliceFrom (s : list Byte.byte) (low : Z) : option (list Byte.byte) :=
  if decide (0 <= low <= Z.of_nat (length s)) then Some (drop (Z.to_nat low) s)
  else None.

(** The [switch new[i]] of [Read]: the buffer and [n] after it. *)
Definition escByte (p : list Byte.byte) (n : nat) (b : Byte.byte)
    : option (list Byte.byte * nat) :=
  if decide (b = Byte.x22 \/ b = Byte.x5c) then
    match setByte p n Byte.x5c with
    | None => None
    | Some p1 =>
        match setByte p1 (S n) b with
        | None => None
        | Some p2 => Some (p2, S n)
        end
    end
  else if decide (b = Byte.x0a) then
    match setByte p n Byte.x5c with
    | None => None
    | Some p1 =>
        match setByte p1 (S n) Byte.x6e with
        | None => None
        | Some p2 => Some (p2, S n)
        end
    end
  else
    match setByte p n b with
    | None => None
    | Some p1 => Some (p1, n)
    end.

(** [for ; i < len(new) && n < len(p); i, n = i+1, n+1 { switch ... }]:
    the buffer, [i] and [n] when the loop is left. *)
Fixpoint escLoop (fuel : nat) (new p : list Byte.byte) (i n : nat)
    : option (list Byte.byte * nat * nat) :=
  match fuel with
  | O => Some (p, i, n)
  | S fuel' =>
      match new !! i with
      | None => Some (p, i, n)
      | Some b =>
          if decide (n < length p)%nat then
            match escByte p n b with
            | None => None
            | Some (p', n') => escLoop fuel' new p' (S i) (S n')
            end
          else Some (p, i, n)
      end
  end.

(** [e.Read(p)]: the escaper, the buffer, [n] and [err] at the return, or
    [None] for a panic.  The reader is asked to fill a buffer of
    [len(p)-len(e.old)] bytes; a reader that claims more bytes than that
    makes [new[0:c]] panic. *)
Definition escaperRead (e : escaper) (p : list Byte.byte)
    : option (escaper * list Byte.byte * nat * readErr) :=
  if decide (length p < length (old e))%nat then None
  else
    let size := (length p - length (old e))%nat in
    let '(chunk, err, r') :=
      match esc_r e with
      | [] => ([], ReadEOF, [])
      | (chunk, err) :: r' => (chunk, err, r')
      end in
    if decide (size < length chunk)%nat then None
    else
      let new := old e ++ chunk in
      match escLoop (length new) new p 0 0 with
      | None => None
      | Some (p', i, n) =>
          match
            (if decide (length p < i)%nat
             then sliceFrom new (Z.of_nat (length new)
                                 - (Z.of_nat (length p) - Z.of_nat i))
             else Some (take 0 new))
          with
          | None => None
          | Some old' => Some (mkEscaper r' old' (debug e), p', n, err)
          end
      end.

(** ** sort.Interface and its two implementations *)

(** [sort.Interface] over a container [T]; an index is an [int] in
    [0 .. Len-1], which is all [sort.Sort] ever passes. *)
Record Interface (T : Type) := mkInterface {
  Len : T -> nat;
  Less : T -> nat -> nat -> bool;
  Swap : T -> nat -> nat -> T
}.
Arguments mkInterface {T}.
Arguments Len {T}.
Arguments Less {T}.
Arguments Swap {T}.

(** [n, m := r[i], r[j]; r[j], r[i] = n, m] *)
Definition sliceSwap (r : list result) (i j : nat) : list result :=
  match r !! i, r !! j with
  | Some n, Some m => <[i := m]> (<[j := n]> r)
  | _, _ => r
  end.

Definition resultsByLines : Interface (list result) :=
  mkInterface
    (fun r => length r)
    (fun r i j =>
       match r !! i, r !! j with
       | Some a, Some b => MissCount a <? MissCount b
       | _, _ => false
       end)
    sliceSwap.

Definition resultsByPercentage : Interface (list result) :=
  mkInterface
    (fun r => length r)
    (fun r i j =>
       match r !! i, r !! j with
       | Some a, Some b => PrimFloat.ltb (MissFraction a) (MissFraction b)
       | _, _ => false
       end)
    sliceSwap.

(** [sort.Reverse]: the same container with [Less(i, j)] answered by
    [Less(j, i)]. *)
Definition Reverse {T} (data : Interface T) : Interface T :=
  mkInterface (Len data) (fun d i j => Less data d j i) (Swap data).

(** What [sort.Sort] may do to the container: any number of [Swap] calls
    at indices below [Len]. *)
Inductive swapped {T} (data : Interface T) : T -> T -> Prop :=
  | swapped_refl d : swapped data d d
  | swapped_step d i j d' :
      (i < Len data d)%nat -> (j < Len data d)%nat ->
      swapped data (Swap data d i j) d' -> swapped data d d'.

(** The requirement [sort.Interface] puts on [Less]: a transitive ordering,
    with transitive incomparability. *)
Definition transitiveOrdering {T} (data : Interface T) (d : T) : Prop :=
  forall i j k, (i < Len data d)%nat -> (j < Len data d)%nat -> (k < Len data d)%nat ->
    (Less data d i j = true -> Less data d j k = true -> Less data d i k = true) /\
    (Less data d i j = false -> Less data d j k = false -> Less data d i k = false).

(** Ascending order as determined by [Less]. *)
Definition sortedBy {T} (data : Interface T) (d : T) : Prop :=
  forall i j, (i < j)%nat -> (j < Len data d)%nat -> Less data d j i = false.

(** [sort.Sort(data)] by the contract of package sort: the container is
    rearranged through [Swap] only, into ascending order as determined by
    [Less] when [Less] is the ordering the interface requires; the sort is
    not guaranteed to be stable. *)
Definition Sort {T} (data : Interface T) (d d' : T) : Prop :=
  swapped data d d' /\ (transitiveOrdering data d -> sortedBy data d').

(** ** printHitlist *)

(** [for _, v := range ctx.Results { rs = append(rs, v) }]: every value once,
    in the order the runtime picks for this loop. *)
Definition rangeValues (ctx : context) (vs : list result) : Prop :=
  vs ≡ₚ (map_to_list (Results ctx)).*2.

(** [for i := range rs { rps = append(rps, [2]*result{rs[i], ps[i]}) }];
    [None] is the index-out-of-range panic. *)
Fixpoint pairLoop (n i : nat) (rs ps : list result) (rps : list (result * result))
    : option (list (result * result)) :=
  match n with
  | O => Some rps
  | S n' =>
      match rs !! i, ps !! i with
      | Some a, Some b => pairLoop n' (S i) rs ps (rps ++ [(a, b)])
      | _, _ => None
      end
  end.

(** The arguments of one [Fprintf(tabs, "%s\t%d\t%s\t%.2f\n", ...)]. *)
Definition hitlistRow (p : result * result) : string * Z * string * float :=
  (filename p.1, MissCount p.1, filename p.2,
   PrimFloat.mul (MissFraction p.2) (float64 100)).

(** [n] turns of [for i := 0; i < limit; i++] over [rps[i]]. *)
Fixpoint rowLoop (n i : nat) (rps : list (result * result))
    (tabs : list (string * Z * string * float))
    : option (list (string * Z * string * float)) :=
  match n with
  | O => Some tabs
  | S n' =>
      match rps !! i with
      | Some p => rowLoop n' (S i) rps (tabs ++ [hitlistRow p])
      | None => None
      end
  end.

(** [printHitlist] from the two sorted slices on: the rows written to
    [tabs] below the header and flushed, or [None] when the function panics
    before [tabs.Flush()]. *)
Definition hitlistRows (rs ps : list result) (limit : Z)
    : option (list (string * Z * string * float)) :=
  match pairLoop (length rs) 0 rs ps [] with
  | None => None
  | Some rps =>
      let limit := if limit =? 0 then Z.of_nat (length rps) else limit in
      rowLoop (Z.to_nat limit) 0 rps []
  end.

(** [printHitlist(ctx, limit)]: the two slices are filled by two [range]
    loops over the map and sorted by [sort.Sort(sort.Reverse(...))]. *)
Definition printHitlist (ctx : context) (limit : Z)
    (out : option (list (string * Z * string * float))) : Prop :=
  exists rs0 rs ps0 ps,
    rangeValues ctx rs0 /\ Sort (Reverse resultsByLines) rs0 rs /\
    rangeValues ctx ps0 /\ Sort (Reverse resultsByPercentage) ps0 ps /\
    out = hitlistRows rs ps limit.

(** ** The first revision of the hitlist *)

(** The hitlist of the first revision with [--hitlist], inlined in [main],
    from the two sorted slices on.  [lim] is [None] when no [--limit] was
    given, else the result of [strconv.ParseInt] on it ([None] for an
    error). *)
Definition hitlistRows1 (rs ps : list result) (lim : option (option Z))
    : option (list (string * Z * string * float)) :=
  match pairLoop (length rs) 0 rs ps [] with
  | None => None
  | Some rps =>
      let len :=
        match lim with
        | Some (Some l) => l
        | _ => Z.of_nat (length rps)
        end in
      rowLoop (Z.to_nat len) 0 rps []
  end.

(** ** The ingestion loops of main.go *)

(** In [main.go] the loops are written out in [main], the [result] has no
    [filename] and no [lines], and a file name that does not resolve is
    passed over with [continue]. *)
Module Rev0.

Record result := mkResult {
  counts : gmap Z Z;
  Hits : list Z;
  Misses : list Z;
  Ignored : list Z
}.

Record context := mkContext {
  Now : Z;
  Results : gmap string result
}.

Section Loops.
Context {W : World}.

(** [for _, p := range ps] of [main]. *)
Fixpoint ingestProfiles (ctx : context) (coverageRoot projRoot : string)
    (ps : list Profile) : option context :=
  match ps with
  | [] => Some ctx
  | p :: ps' =>
      match canonical coverageRoot projRoot p with
      | None => ingestProfiles ctx coverageRoot projRoot ps'
      | Some rn =>
          let r := default (mkResult ∅ [] [] []) (Results ctx !! rn) in
          match addBlocks (counts r) (Blocks p) with
          | None => None
          | Some cnt =>
              ingestProfiles
                (mkContext (Now ctx)
                   (<[rn := mkResult cnt (Hits r) (Misses r) (Ignored r)]> (Results ctx)))
                coverageRoot projRoot ps'
          end
      end
  end.

(** [for _, fp := range sourceFiles] of [main]. *)
Fixpoint ingestFiles (ctx : context) (coverageRoot projRoot : string)
    (sourceFiles : list string) : option context :=
  match sourceFiles with
  | [] => Some ctx
  | fp :: fps =>
      match ParseProfiles fp with
      | None => ingestFiles ctx coverageRoot projRoot fps
      | Some ps =>
          match ingestProfiles ctx coverageRoot projRoot ps with
          | None => None
          | Some ctx' => ingestFiles ctx' coverageRoot projRoot fps
          end
      end
  end.
End Loops.

End Rev0.

(** ** Vocabulary of the statements *)

(** [pb] covers line [l]. *)
Definition covers (pb : ProfileBlock) (l : Z) : bool :=
  bool_decide (StartLine pb <= l <= EndLine pb).

(** Some block of [bs] covers [l]. *)
Definition covered (bs : list ProfileBlock) (l : Z) : bool :=
  existsb (fun pb => covers pb l) bs.

(** The sum, in [Z], of the counts of the blocks of [bs] covering [l]. *)
Fixpoint total (bs : list ProfileBlock) (l : Z) : Z :=
  match bs with
  | [] => 0
  | pb :: bs' => (if covers pb l then Count pb else 0) + total bs' l
  end.

(** The block loop that never returns. *)
Definition endless (pb : ProfileBlock) : Prop :=
  StartLine pb <= EndLine pb /\ max_int <= EndLine pb.

(** The line separators in what [lineCounter] reads of a file, counted
    in [Z]. *)
Fixpoint newlines (r : Reader) : Z :=
  match r with
  | [] => 0
  | (chunk, err) :: r' =>
      bytesCount chunk + match err with ReadOk => newlines r' | _ => 0 end
  end.

(** The bytes [lineCounter] is handed before it returns: the chunks up to
    the first [Read] that reports the end of the file or an error. *)
Fixpoint contents (r : Reader) : list Byte.byte :=
  match r with
  | [] => []
  | (chunk, err) :: r' =>
      chunk ++ match err with ReadOk => contents r' | _ => [] end
  end.

(** Some [Read] reports an error other than [io.EOF] before the end of the
    file is reported. *)
Fixpoint failing (r : Reader) : bool :=
  match r with
  | [] => false
  | (_, ReadOk) :: r' => failing r'
  | (_, ReadEOF) :: _ => false
  | (_, ReadFail) :: _ => true
  end.

(** What [escaper.Read] is to write for one byte, and for a text. *)
Definition escape1 (b : Byte.byte) : list Byte.byte :=
  if decide (b = Byte.x22 \/ b = Byte.x5c) then [Byte.x5c; b]
  else if decide (b = Byte.x0a) then [Byte.x5c; Byte.x6e]
  else [b].

Definition escape (l : list Byte.byte) : list Byte.byte := concat (map escape1 l).

(** The bytes [escaper.Read] writes in two steps. *)
Definition special (b : Byte.byte) : Prop :=
  b = Byte.x22 \/ b = Byte.x5c \/ b = Byte.x0a.

(** The context of [main.go] and the context of the last revision hold
    the same paths with the same counts. *)
Definition sameCounts (ctx0 : Rev0.context) (ctx : context) : Prop :=
  forall rn, Rev0.counts <$> (Rev0.Results ctx0 !! rn) = counts <$> (Results ctx !! rn).

(** The count stored for line [l] of path [rn], if any. *)
Definition countAt (ctx : context) (rn : string) (l : Z) : option Z :=
  Results ctx !! rn ≫= fun r => counts r !! l.

(** A tally: a result no line of which has been classified yet. *)
Definition unclassified (r : result) : Prop :=
  Hits r = [] /\ Misses r = [] /\ Ignored r = [].

(** The three classes of a line. *)
Inductive kind := Hit | Miss | Ign.

Global Instance kind_eq_dec : EqDecision kind.
Proof. solve_decision. Defined.

(** The class the [switch] of [buildFileCoverage] picks for line [l]. *)
Definition classOf (cnt : gmap Z Z) (l : Z) : kind :=
  match cnt !! l with
  | None => Ign
  | Some c => if 0 <? c then Hit else Miss
  end.

(** The lines of class [k] among the [n] lines from [ln] on, ascending. *)
Definition linesOf (k : kind) (cnt : gmap Z Z) (ln : Z) (n : nat) : list Z :=
  filter (fun l => classOf cnt l = k) (seqZ ln (Z.of_nat n)).

(** Every result is stored under its own file name. *)
Definition keyed (ctx : context) : Prop :=
  forall rn r, Results ctx !! rn = Some r -> filename r = rn.

(** Every result is still a tally. *)
Definition tallies (ctx : context) : Prop :=
  forall rn r, Results ctx !! rn = Some r -> unclassified r.

(** One turn of the loop of [ingestCoverageFile] for a profile whose file
    name resolved to [rn]. *)
Definition ingestProfile (ctx : context) (rn : string) (bs : list ProfileBlock)
    : option context :=
  let r := default (newResult rn) (Results ctx !! rn) in
  addBlocks (counts r) bs ≫= fun cnt =>
  Some (set_Results ctx (<[rn := set_counts r cnt]> (Results ctx))).

Section Vocabulary.
Context {W : World}.

(** The blocks that [ingestProfiles] merges into path [rn]: those of the
    profiles met before the first file name that does not resolve. *)
Fixpoint merged (coverageRoot projRoot rn : string) (ps : list Profile)
    : list ProfileBlock :=
  match ps with
  | [] => []
  | p :: ps' =>
      match canonical coverageRoot projRoot p with
      | None => []
      | Some rn' =>
          (if decide (rn' = rn) then Blocks p else [])
            ++ merged coverageRoot projRoot rn ps'
      end
  end.

(** The profiles of the files [fps], in order; a file that does not parse
    has none. *)
Definition profilesOf (fps : list string) : list Profile :=
  concat (map (fun fp => default [] (ParseProfiles fp)) fps).

(** The line count [buildFileCoverage] obtains for path [f], or [None]
    when [os.Open] or [lineCounter] reports an error. *)
Definition readLines (projRoot f : string) : option Z :=
  match Open (Join projRoot f) with
  | None => None
  | Some file =>
      match lineCounter file with
      | (_, true) => None
      | (n, false) => Some n
      end
  end.

(** The result [buildFileCoverage] leaves for a tally [r] of a file of
    [n] lines. *)
Definition classify (r : result) (n : Z) : result :=
  coverLoop (Z.to_nat n) 0 (set_lines r n).

(** The profiles [ingestProfiles] reaches: those before the first file
    name that does not resolve. *)
Fixpoint reached (coverageRoot projRoot : string) (ps : list Profile)
    : list Profile :=
  match ps with
  | [] => []
  | p :: ps' =>
      match canonical coverageRoot projRoot p with
      | None => []
      | Some _ => p :: reached coverageRoot projRoot ps'
      end
  end.

(** The blocks merged into path [rn] by the ingestion of the files [fps]. *)
Definition mergedFiles (coverageRoot projRoot rn : string) (fps : list string)
    : list ProfileBlock :=
  concat (map (fun fp => merged coverageRoot projRoot rn (default [] (ParseProfiles fp)))
            fps).

(** The file [fp] parses as a cover profile. *)
Definition parses (fp : string) : bool :=
  match ParseProfiles fp with Some _ => true | None => false end.

(** The file name of [p] resolves to a canonical path. *)
Definition resolves (coverageRoot projRoot : string) (p : Profile) : Prop :=
  is_Some (canonical coverageRoot projRoot p).
End Vocabulary.

(** A key in [Z * Z * Z] that orders the binary64 values other than NaN as
    [<] on [float64] does: sign class, then exponent, then mantissa. *)
Definition sfKey (f : spec_float) : Z * Z * Z :=
  match f with
  | S754_zero _ => (0, 0, 0)
  | S754_nan => (0, 0, 0)
  | S754_infinity false => (2, 0, 0)
  | S754_infinity true => (-2, 0, 0)
  | S754_finite false m e => (1, e, Z.pos m)
  | S754_finite true m e => (-1, - e, - Z.pos m)
  end.

Definition keyLt (a b : Z * Z * Z) : Prop :=
  a.1.1 < b.1.1 \/
  (a.1.1 = b.1.1 /\ (a.1.2 < b.1.2 \/ (a.1.2 = b.1.2 /\ a.2 < b.2))).

(** No miss fraction of [rs] is NaN. *)
Definition fractionsDefined (rs : list result) : Prop :=
  forall r, r ∈ rs -> PrimFloat.is_nan (MissFraction r) = false.

(** Entries with the same key stand in [l'] in the order they have in [l]. *)
Definition tiesKeepOrder {K} `{EqDecision K} (key : result -> K)
    (l l' : list result) : Prop :=
  forall k, filter (fun r => key r = k) l' = filter (fun r => key r = k) l.

(** ** A small world to run the engine on *)

Module Demo.
Local Open Scope string_scope.

(** Source text: [n] lines [a\n]. *)
Definition text (n : nat) : list Byte.byte :=
  concat (replicate n [Byte.x61; Byte.x0a]).

(** [filepath.Rel] for paths below the root. *)
Definition relTo (root p : string) : option string :=
  if String.prefix (root ++ "/") p
  then Some (String.substring (String.length root + 1)
               (String.length p - (String.length root + 1)) p)
  else None.

#[export] Instance world : World := {|
  ParseProfiles fp :=
    if String.eqb fp "a.out" then
      Some [mkProfile "app/main.go" [mkBlock 1 3 0; mkBlock 2 2 4];
            mkProfile "app/util.go" [mkBlock 0 0 2]]
    else if String.eqb fp "b.out" then
      Some [mkProfile "app/util.go" [mkBlock 0 0 3; mkBlock 1 5 0];
            mkProfile "app/gone.go" [mkBlock 1 1 1]]
    else if String.eqb fp "c.out" then
      Some [mkProfile "app/empty.go" [mkBlock 1 2 7]]
    else if String.eqb fp "d.out" then
      Some [mkProfile "app/main.go" [mkBlock 1 1 0];
            mkProfile "app/util.go" [mkBlock 1 1 0]]
    else None;
  Join a b := a ++ "/" ++ b;
  Rel := relTo;
  Open p :=
    if String.eqb p "/src/app/main.go" then Some [(text 3, ReadOk); (text 2, ReadEOF)]
    else if String.eqb p "/src/app/util.go" then Some [(text 2, ReadOk)]
    else if String.eqb p "/src/app/empty.go" then Some [([], ReadEOF)]
    else if String.eqb p "/src/app/torn.go" then Some [(text 1, ReadFail)]
    else None;
  UnixNow := 1477900000
|}.

Definition coverageRoot : string := "/src".
Definition projRoot : string := "/src/app".

(** The context after the ingestion of the files [fps]. *)
Definition ingested (fps : list string) : context :=
  default emptyContext (ingestFiles emptyContext coverageRoot projRoot fps).

(** The context a run on the files [fps] returns. *)
Definition run (fps : list string) : context :=
  default emptyContext (collectCoverageContext coverageRoot projRoot fps).

(** The results of a context, by file name. *)
Definition values (ctx : context) : list result := (map_to_list (Results ctx)).*2.
Definition entry (ctx : context) (f : string) : result :=
  default (newResult f) (Results ctx !! f).

(** The source file [main.go] as [os.Open] hands it out. *)
Definition mainFile : Reader := [(text 3, ReadOk); (text 2, ReadEOF)].
Definition utilFile : Reader := [(text 2, ReadOk)].
End Demo.

(** A second world: the profile file [e.out] names, between two files
    below the project root, one that is not below it. *)
Module Demo2.
Local Open Scope string_scope.

Definition world : World := {|
  ParseProfiles fp :=
    if String.eqb fp "e.out" then
      Some [mkProfile "app/main.go" [mkBlock 1 2 1];
            mkProfile "lib/x.go" [mkBlock 1 1 1];
            mkProfile "app/util.go" [mkBlock 0 0 4]]
    else None;
  Join a b := a ++ "/" ++ b;
  Rel := Demo.relTo;
  Open p := None;
  UnixNow := 0
|}.

(** A text to escape: the letter a, a quote, the letter b, a line feed. *)
Definition quoted : list Byte.byte := [Byte.x61; Byte.x22; Byte.x62; Byte.x0a].

(** A buffer of [n] zero bytes. *)
Definition buffer (n : nat) : list Byte.byte := replicate n Byte.x00.
End Demo2.

(** * Proofs *)

(** ** Arithmetic of [int] *)

Lemma wrap_small z : min_int <= z <= max_int -> wrap z = z.
Proof.
  unfold wrap, min_int, max_int. intros Hz.
  rewrite Z.mod_small; lia.
Qed.

Lemma wrap_add_l a b : wrap (wrap a + b) = wrap (a + b).
Proof.
  unfold wrap. f_equal.
  replace ((a + 2 ^ 63) mod 2 ^ 64 - 2 ^ 63 + b + 2 ^ 63)
    with ((a + 2 ^ 63) mod 2 ^ 64 + b) by lia.
  rewrite Zplus_mod_idemp_l. f_equal. lia.
Qed.

Lemma wrap_add_r a b : wrap (a + wrap b) = wrap (a + b).
Proof. rewrite (Z.add_comm a), wrap_add_l. f_equal. lia. Qed.

Lemma wrap_range z : min_int <= wrap z <= max_int.
Proof.
  unfold wrap, min_int, max_int.
  pose proof (Z.mod_pos_bound (z + 2 ^ 63) (2 ^ 64)). lia.
Qed.

(** ** lineCounter counts the line separators *)

Lemma bytesCount_nonneg chunk : 0 <= bytesCount chunk.
Proof. unfold bytesCount. lia. Qed.

Lemma newlines_nonneg r : 0 <= newlines r.
Proof.
  induction r as [|[chunk err] r IH]; cbn; [done |].
  pose proof (bytesCount_nonneg chunk). destruct err; lia.
Qed.

Lemma lineCounterLoop_newlines r count :
  min_int <= count <= max_int ->
  (lineCounterLoop r count).1 = wrap (count + newlines r).
Proof.
  revert count. induction r as [|[chunk err] r IH]; intros count Hc; cbn.
  - rewrite Z.add_0_r. by rewrite wrap_small.
  - unfold addInt. destruct err; cbn.
    + rewrite IH by apply wrap_range. rewrite wrap_add_l. f_equal. lia.
    + f_equal. lia.
    + f_equal. lia.
Qed.

(** For a file of fewer than [2^63] line separators, as every file is,
    the count returned is their number. *)
Lemma lineCounter_newlines r :
  newlines r <= max_int -> (lineCounter r).1 = newlines r /\ 0 <= newlines r.
Proof.
  intros Hr. pose proof (newlines_nonneg r) as Hn. split; [|done].
  unfold lineCounter. rewrite lineCounterLoop_newlines by (unfold min_int, max_int; lia).
  apply wrap_small. unfold min_int. cbn. lia.
Qed.

(** ** What the block loops store *)

Lemma lineLoop_lookup n ln c cnt l :
  lineLoop n ln c cnt !! l =
    if bool_decide (ln <= l < ln + Z.of_nat n)
    then Some (addInt (default 0 (cnt !! l)) c) else cnt !! l.
Proof.
  revert ln cnt. induction n as [|n IH]; intros ln cnt.
  - simpl. rewrite bool_decide_eq_false_2; [done | lia].
  - cbn [lineLoop]. rewrite IH. unfold addCount.
    destruct (decide (ln = l)) as [->|Hne].
    + rewrite lookup_insert_eq.
      rewrite (bool_decide_eq_false_2 (l + 1 <= l < _)) by lia.
      rewrite bool_decide_eq_true_2 by lia. done.
    + rewrite lookup_insert_ne by done.
      rewrite (bool_decide_ext (ln + 1 <= l < ln + 1 + Z.of_nat n)
                 (ln <= l < ln + Z.of_nat (S n))) by lia.
      done.
Qed.

Lemma addBlock_lookup cnt pb cnt' l :
  addBlock cnt pb = Some cnt' ->
  cnt' !! l = if covers pb l then Some (addInt (default 0 (cnt !! l)) (Count pb))
              else cnt !! l.
Proof.
  unfold addBlock, covers. case_bool_decide as Hend; [done |].
  intros [= <-]. rewrite lineLoop_lookup.
  rewrite (bool_decide_ext (StartLine pb <= l < _) (StartLine pb <= l <= EndLine pb));
    [done |].
  unfold endless in Hend. lia.
Qed.

Lemma addBlock_None cnt pb : addBlock cnt pb = None <-> endless pb.
Proof. unfold addBlock, endless. case_bool_decide; split; intros; done || tauto. Qed.

Lemma addBlocks_None cnt bs : addBlocks cnt bs = None <-> Exists endless bs.
Proof.
  revert cnt. induction bs as [|pb bs IH]; intros cnt; simpl.
  - split; [done | by intros ?%Exists_nil].
  - rewrite Exists_cons. destruct (addBlock cnt pb) as [cnt'|] eqn:Hpb.
    + rewrite IH. split; [tauto |]. intros [Hend|?]; [|done].
      apply (addBlock_None cnt) in Hend. congruence.
    + apply addBlock_None in Hpb. tauto.
Qed.

Lemma total_uncovered bs l : covered bs l = false -> total bs l = 0.
Proof.
  induction bs as [|pb bs IH]; simpl; [done |].
  intros [-> ?]%orb_false_iff. rewrite IH; done.
Qed.

Lemma addBlocks_lookup bs cnt cnt' l :
  addBlocks cnt bs = Some cnt' ->
  cnt' !! l = if covered bs l then Some (wrap (default 0 (cnt !! l) + total bs l))
              else cnt !! l.
Proof.
  revert cnt. induction bs as [|pb bs IH]; intros cnt; simpl.
  - by intros [= <-].
  - destruct (addBlock cnt pb) as [cnt1|] eqn:Hpb; [|done].
    intros H. rewrite (IH _ H), (addBlock_lookup _ _ _ l Hpb).
    destruct (covers pb l), (covered bs l) eqn:Hbs; simpl; try done.
    + unfold addInt. rewrite wrap_add_l. f_equal. f_equal. lia.
    + unfold addInt. rewrite (total_uncovered _ _ Hbs). f_equal. f_equal. lia.
Qed.

Lemma covered_app bs1 bs2 l : covered (bs1 ++ bs2) l = covered bs1 l || covered bs2 l.
Proof. apply existsb_app. Qed.

Lemma total_app bs1 bs2 l : total (bs1 ++ bs2) l = total bs1 l + total bs2 l.
Proof. induction bs1 as [|pb bs1 IH]; simpl; lia. Qed.

Lemma addBlocks_app cnt bs1 bs2 :
  addBlocks cnt (bs1 ++ bs2) = addBlocks cnt bs1 ≫= fun c => addBlocks c bs2.
Proof.
  revert cnt. induction bs1 as [|pb bs1 IH]; intros cnt; simpl; [done |].
  destruct (addBlock cnt pb); simpl; [apply IH | done].
Qed.

(** Whether the loop over blocks returns does not depend on the counts. *)
Lemma addBlocks_is_Some cnt cnt' bs :
  is_Some (addBlocks cnt bs) -> is_Some (addBlocks cnt' bs).
Proof.
  rewrite <- !not_eq_None_Some, !addBlocks_None. done.
Qed.

(** Two runs of block loops that cover the same lines with the same sums
    store the same counts. *)
Lemma addBlocks_ext cnt bs bs' c c' :
  addBlocks cnt bs = Some c -> addBlocks cnt bs' = Some c' ->
  (forall l, covered bs l = covered bs' l /\ total bs l = total bs' l) ->
  c = c'.
Proof.
  intros H H' Hext. apply map_eq. intros l.
  rewrite (addBlocks_lookup _ _ _ l H), (addBlocks_lookup _ _ _ l H').
  destruct (Hext l) as [-> ->]. done.
Qed.

Lemma addBlocks_comm cnt bs1 bs2 :
  addBlocks cnt (bs1 ++ bs2) = addBlocks cnt (bs2 ++ bs1).
Proof.
  destruct (addBlocks cnt (bs1 ++ bs2)) as [c|] eqn:H1,
           (addBlocks cnt (bs2 ++ bs1)) as [c'|] eqn:H2; try done.
  - f_equal. apply (addBlocks_ext _ _ _ _ _ H1 H2). intros l.
    rewrite !covered_app, !total_app. split; [apply orb_comm | lia].
  - apply addBlocks_None in H2. assert (Exists endless (bs1 ++ bs2)) as H.
    { rewrite Exists_app in *. tauto. }
    apply (addBlocks_None cnt) in H. congruence.
  - apply addBlocks_None in H1. assert (Exists endless (bs2 ++ bs1)) as H.
    { rewrite Exists_app in *. tauto. }
    apply (addBlocks_None cnt) in H. congruence.
Qed.

(** ** What ingestion stores *)

Section Ingest.
Context {W : World}.
Variables coverageRoot projRoot : string.

Local Abbreviation canon := (canonical coverageRoot projRoot).

Lemma ingestProfiles_cons ctx p ps :
  ingestProfiles ctx coverageRoot projRoot (p :: ps) =
    match canon p with
    | None => Some ctx
    | Some rn =>
        ingestProfile ctx rn (Blocks p) ≫= fun c =>
        ingestProfiles c coverageRoot projRoot ps
    end.
Proof.
  cbn [ingestProfiles]. destruct (canon p) as [rn|]; [|done].
  unfold ingestProfile. cbn zeta.
  destruct (addBlocks _ (Blocks p)); done.
Qed.

Lemma ingestProfile_countAt ctx rn bs ctx' rn' l :
  ingestProfile ctx rn bs = Some ctx' ->
  countAt ctx' rn' l =
    if decide (rn = rn') then
      if covered bs l then Some (wrap (default 0 (countAt ctx rn' l) + total bs l))
      else countAt ctx rn' l
    else countAt ctx rn' l.
Proof.
  unfold ingestProfile. cbn zeta.
  destruct (addBlocks _ bs) as [cnt|] eqn:Hbs; [|done].
  intros [= <-]. unfold countAt. cbn [Results set_Results].
  destruct (decide (rn = rn')) as [<-|Hne].
  - rewrite lookup_insert_eq. cbn.
    rewrite (addBlocks_lookup _ _ _ l Hbs).
    destruct (Results ctx !! rn); done.
  - rewrite lookup_insert_ne; done.
Qed.

Lemma ingestProfiles_countAt ps ctx ctx' rn l :
  ingestProfiles ctx coverageRoot projRoot ps = Some ctx' ->
  countAt ctx' rn l =
    if covered (merged coverageRoot projRoot rn ps) l
    then Some (wrap (default 0 (countAt ctx rn l)
                     + total (merged coverageRoot projRoot rn ps) l))
    else countAt ctx rn l.
Proof.
  revert ctx. induction ps as [|p ps IH]; intros ctx.
  - by intros [= <-].
  - rewrite ingestProfiles_cons. cbn [merged].
    destruct (canon p) as [rn'|]; [|by intros [= <-]].
    destruct (ingestProfile ctx rn' (Blocks p)) as [ctx1|] eqn:H1; [|done].
    cbn. intros H. rewrite (IH _ H), (ingestProfile_countAt _ _ _ _ rn l H1).
    rewrite covered_app, total_app.
    destruct (decide (rn' = rn)) as [_|_]; [|done].
    destruct (covered (Blocks p) l) eqn:Hp,
             (covered (merged coverageRoot projRoot rn ps) l) eqn:Hps; cbn; try done.
    + rewrite wrap_add_l. f_equal. f_equal. lia.
    + rewrite (total_uncovered _ _ Hps). f_equal. f_equal. lia.
    + rewrite (total_uncovered _ _ Hp). done.
Qed.

Lemma ingestProfile_is_Some ctx ctx' rn bs :
  is_Some (ingestProfile ctx rn bs) -> is_Some (ingestProfile ctx' rn bs).
Proof.
  unfold ingestProfile. cbn zeta. intros [c Hc].
  destruct (addBlocks (counts (default (newResult rn) (Results ctx !! rn))) bs)
    as [cnt|] eqn:Hbs; [|done].
  destruct (addBlocks_is_Some _
              (counts (default (newResult rn) (Results ctx' !! rn))) _
              (mk_is_Some _ _ Hbs)) as [cnt' ->].
  by eexists.
Qed.

(** Whether ingestion returns does not depend on what is already stored. *)
Lemma ingestProfiles_is_Some ps ctx ctx' :
  is_Some (ingestProfiles ctx coverageRoot projRoot ps) ->
  is_Some (ingestProfiles ctx' coverageRoot projRoot ps).
Proof.
  revert ctx ctx'. induction ps as [|p ps IH]; intros ctx ctx'; [by eexists |].
  rewrite !ingestProfiles_cons. destruct (canon p) as [rn|]; [|by eexists].
  destruct (ingestProfile ctx rn (Blocks p)) as [c1|] eqn:H1; cbn;
    [|by intros [? ?]].
  destruct (ingestProfile_is_Some _ ctx' _ _ (mk_is_Some _ _ H1)) as [c2 ->].
  cbn. apply IH.
Qed.

(** C3. Ingesting the same profile twice into an empty context.  After the
    first ingestion a line of a path holds a count exactly when some block
    merged into that path covers it, and the count is the [int] sum of the
    counts of all the blocks covering it - overlapping and repeated blocks
    add up, no maximum is taken and nothing is overwritten.  The second
    ingestion returns as the first did, counts the same lines, and stores
    for each the [int] value of twice that sum: the first count added to
    itself, which is [2 * c] whenever that fits an [int]. *)
Theorem ingest_twice_doubles fp ctx1 :
  ingestCoverageFile emptyContext coverageRoot projRoot fp = Some ctx1 ->
  exists ctx2,
    ingestCoverageFile ctx1 coverageRoot projRoot fp = Some ctx2 /\
    forall rn ln,
      let bs := merged coverageRoot projRoot rn (default [] (ParseProfiles fp)) in
      countAt ctx1 rn ln =
        (if covered bs ln then Some (wrap (total bs ln)) else None) /\
      countAt ctx2 rn ln =
        (if covered bs ln then Some (wrap (2 * total bs ln)) else None) /\
      countAt ctx2 rn ln = (fun c => addInt c c) <$> countAt ctx1 rn ln /\
      (forall c, countAt ctx1 rn ln = Some c -> min_int <= 2 * c <= max_int ->
         countAt ctx2 rn ln = Some (2 * c)).
Proof.
  assert (forall rn ln, countAt emptyContext rn ln = None) as Hempty.
  { intros rn ln. unfold countAt. cbn. by rewrite lookup_empty. }
  unfold ingestCoverageFile. destruct (ParseProfiles fp) as [ps|]; cbn [from_option id].
  - intros H1.
    destruct (ingestProfiles_is_Some ps _ ctx1 (mk_is_Some _ _ H1)) as [ctx2 H2].
    exists ctx2. split; [done |]. intros rn ln. cbn zeta.
    pose proof (ingestProfiles_countAt _ _ _ rn ln H1) as E1.
    pose proof (ingestProfiles_countAt _ _ _ rn ln H2) as E2.
    rewrite Hempty in E1. rewrite E1 in E2. cbn [from_option id] in E1.
    destruct (covered (merged coverageRoot projRoot rn ps) ln).
    + cbn [from_option id] in E2. rewrite wrap_add_l in E2.
      rewrite Z.add_0_l in E1, E2.
      assert (countAt ctx2 rn ln = (fun c => addInt c c) <$> countAt ctx1 rn ln) as Heq.
      { rewrite E1, E2. cbn. unfold addInt. by rewrite wrap_add_l, wrap_add_r. }
      split_and!.
      * done.
      * rewrite E2. do 2 f_equal. lia.
      * done.
      * intros c Hc Hfit. rewrite Heq, Hc. cbn.
        unfold addInt. rewrite wrap_small; [f_equal; lia | lia].
    + split_and!; try done.
      * by rewrite E2, E1.
      * intros c Hc. by rewrite E1 in Hc.
  - intros [= <-]. exists emptyContext. split; [done |]. intros rn ln. cbn.
    rewrite Hempty. split_and!; done.
Qed.
End Ingest.

(** ** Ingestion does not depend on the order of the profiles *)

Lemma set_counts_set_counts r c c' : set_counts (set_counts r c) c' = set_counts r c'.
Proof. done. Qed.

Lemma ingestProfile_twice ctx rn bs1 bs2 :
  ingestProfile ctx rn bs1 ≫= (fun c => ingestProfile c rn bs2) =
  ingestProfile ctx rn (bs1 ++ bs2).
Proof.
  unfold ingestProfile. cbn zeta. rewrite addBlocks_app.
  destruct (addBlocks _ bs1) as [c1|]; cbn; [|done].
  rewrite lookup_insert_eq. cbn.
  destruct (addBlocks c1 bs2) as [c2|]; cbn; [|done].
  by rewrite insert_insert_eq.
Qed.

Lemma ingestProfile_comm ctx rn1 bs1 rn2 bs2 :
  ingestProfile ctx rn1 bs1 ≫= (fun c => ingestProfile c rn2 bs2) =
  ingestProfile ctx rn2 bs2 ≫= (fun c => ingestProfile c rn1 bs1).
Proof.
  destruct (decide (rn1 = rn2)) as [->|Hne].
  - rewrite !ingestProfile_twice. unfold ingestProfile. cbn zeta.
    by rewrite addBlocks_comm.
  - unfold ingestProfile. cbn zeta.
    destruct (addBlocks (counts (default (newResult rn1) (Results ctx !! rn1))) bs1)
      as [c1|] eqn:H1;
    destruct (addBlocks (counts (default (newResult rn2) (Results ctx !! rn2))) bs2)
      as [c2|] eqn:H2; cbn;
    rewrite ?lookup_insert_ne by done; rewrite ?H1, ?H2; cbn; try done.
    by rewrite insert_insert_ne.
Qed.

Section Order.
Context {W : World}.
Variables coverageRoot projRoot : string.

Local Abbreviation canon := (canonical coverageRoot projRoot).
Local Abbreviation ok := (resolves coverageRoot projRoot).

Lemma ingestProfiles_swap ctx p q ps :
  ok p -> ok q ->
  ingestProfiles ctx coverageRoot projRoot (p :: q :: ps) =
  ingestProfiles ctx coverageRoot projRoot (q :: p :: ps).
Proof.
  intros [rp Hp] [rq Hq].
  transitivity
    ((ingestProfile ctx rp (Blocks p) ≫= fun c => ingestProfile c rq (Blocks q))
       ≫= fun c => ingestProfiles c coverageRoot projRoot ps).
  - rewrite ingestProfiles_cons, Hp.
    destruct (ingestProfile ctx rp (Blocks p)); cbn [mbind option_bind]; [|done].
    by rewrite ingestProfiles_cons, Hq.
  - rewrite ingestProfile_comm, (ingestProfiles_cons _ _ ctx q), Hq.
    destruct (ingestProfile ctx rq (Blocks q)); cbn [mbind option_bind]; [|done].
    by rewrite ingestProfiles_cons, Hp.
Qed.

Lemma ingestProfiles_Permutation ps ps' :
  ps ≡ₚ ps' -> Forall ok ps ->
  forall ctx, ingestProfiles ctx coverageRoot projRoot ps =
              ingestProfiles ctx coverageRoot projRoot ps'.
Proof.
  induction 1 as [|p ps ps' Hperm IH|p q ps|ps1 ps2 ps3 H12 IH12 H23 IH23];
    intros Hok ctx.
  - done.
  - rewrite !ingestProfiles_cons. apply Forall_cons in Hok as [_ Hok].
    destruct (canon p); [|done].
    destruct (ingestProfile ctx _ (Blocks p)); cbn; [by apply IH | done].
  - apply Forall_cons in Hok as [Hq [Hp _]%Forall_cons].
    by apply ingestProfiles_swap.
  - rewrite IH12 by done. apply IH23. by rewrite <- H12.
Qed.

Lemma ingestProfiles_app ps1 ps2 ctx :
  Forall ok ps1 ->
  ingestProfiles ctx coverageRoot projRoot (ps1 ++ ps2) =
  ingestProfiles ctx coverageRoot projRoot ps1 ≫= fun c =>
  ingestProfiles c coverageRoot projRoot ps2.
Proof.
  revert ctx. induction ps1 as [|p ps1 IH]; intros ctx Hok; [done |].
  apply Forall_cons in Hok as [[rn Hp] Hok]. cbn [app].
  rewrite !ingestProfiles_cons, Hp.
  destruct (ingestProfile ctx rn (Blocks p)); cbn; [by apply IH | done].
Qed.

(** When every file name resolves, ingesting the files one after the
    other is ingesting all their profiles in one loop. *)
Lemma ingestFiles_profilesOf fps ctx :
  Forall ok (profilesOf fps) ->
  ingestFiles ctx coverageRoot projRoot fps =
  ingestProfiles ctx coverageRoot projRoot (profilesOf fps).
Proof.
  revert ctx. induction fps as [|fp fps IH]; intros ctx Hok; [done |].
  unfold profilesOf in *. cbn [map concat ingestFiles] in *.
  apply Forall_app in Hok as [Hfp Hok].
  rewrite ingestProfiles_app by done. unfold ingestCoverageFile.
  destruct (ParseProfiles fp) as [ps|]; cbn.
  - destruct (ingestProfiles ctx coverageRoot projRoot ps); cbn; [by apply IH | done].
  - by apply IH.
Qed.

(** C8. Two lists of profile files that hold the same profiles, in any
    order, all of whose file names resolve to a canonical path, are
    ingested into the same context - the same counts for every path and
    line - and so give the same classified results. *)
Theorem ingest_order_irrelevant fps1 fps2 :
  profilesOf fps1 ≡ₚ profilesOf fps2 ->
  Forall (resolves coverageRoot projRoot) (profilesOf fps1) ->
  ingestFiles emptyContext coverageRoot projRoot fps1 =
    ingestFiles emptyContext coverageRoot projRoot fps2 /\
  collectCoverageContext coverageRoot projRoot fps1 =
    collectCoverageContext coverageRoot projRoot fps2.
Proof.
  intros Hperm Hok.
  assert (ingestFiles emptyContext coverageRoot projRoot fps1 =
          ingestFiles emptyContext coverageRoot projRoot fps2) as Heq.
  { rewrite !ingestFiles_profilesOf; [|by rewrite <- Hperm|done].
    by apply ingestProfiles_Permutation. }
  split; [done |]. unfold collectCoverageContext. by rewrite Heq.
Qed.
End Order.

(** ** Classification *)

Section Classify.
Context {W : World}.

Lemma classifyLine_fields r ln :
  filename (classifyLine r ln) = filename r /\
  lines (classifyLine r ln) = lines r /\
  counts (classifyLine r ln) = counts r.
Proof.
  unfold classifyLine. destruct (counts r !! ln) as [c|]; [|done].
  destruct (0 <? c); done.
Qed.

Lemma coverLoop_fields n ln r :
  filename (coverLoop n ln r) = filename r /\
  lines (coverLoop n ln r) = lines r /\
  counts (coverLoop n ln r) = counts r.
Proof.
  revert ln r. induction n as [|n IH]; intros ln r; [done |].
  cbn [coverLoop].
  destruct (IH (ln + 1) (classifyLine r ln)) as (-> & -> & ->).
  apply classifyLine_fields.
Qed.

Lemma linesOf_S k cnt ln n :
  linesOf k cnt ln (S n) =
    (if decide (classOf cnt ln = k) then [ln] else []) ++ linesOf k cnt (ln + 1) n.
Proof.
  unfold linesOf. rewrite seqZ_cons by lia.
  replace (Z.pred (Z.of_nat (S n))) with (Z.of_nat n) by lia.
  replace (Z.succ ln) with (ln + 1) by lia.
  rewrite filter_cons. by case_decide.
Qed.

Lemma coverLoop_lists n ln r :
  Hits (coverLoop n ln r) = Hits r ++ linesOf Hit (counts r) ln n /\
  Misses (coverLoop n ln r) = Misses r ++ linesOf Miss (counts r) ln n /\
  Ignored (coverLoop n ln r) = Ignored r ++ linesOf Ign (counts r) ln n.
Proof.
  revert ln r. induction n as [|n IH]; intros ln r.
  - cbn. by rewrite !app_nil_r.
  - cbn [coverLoop]. rewrite !linesOf_S.
    destruct (IH (ln + 1) (classifyLine r ln)) as (-> & -> & ->).
    destruct (classifyLine_fields r ln) as (_ & _ & ->).
    unfold classifyLine, classOf.
    destruct (counts r !! ln) as [c|]; [destruct (0 <? c) |];
      cbn; rewrite <- ?app_assoc; done.
Qed.

Lemma classify_lists r n :
  unclassified r ->
  Hits (classify r n) = linesOf Hit (counts r) 0 (Z.to_nat n) /\
  Misses (classify r n) = linesOf Miss (counts r) 0 (Z.to_nat n) /\
  Ignored (classify r n) = linesOf Ign (counts r) 0 (Z.to_nat n).
Proof.
  intros (Hh & Hm & Hi). unfold classify.
  destruct (coverLoop_lists (Z.to_nat n) 0 (set_lines r n)) as (-> & -> & ->).
  cbn. by rewrite Hh, Hm, Hi.
Qed.

Lemma classify_fields r n :
  filename (classify r n) = filename r /\
  lines (classify r n) = n /\
  counts (classify r n) = counts r.
Proof. unfold classify. by destruct (coverLoop_fields (Z.to_nat n) 0 (set_lines r n)) as (-> & -> & ->). Qed.

Lemma elem_of_linesOf k cnt ln n l :
  l ∈ linesOf k cnt ln n <-> classOf cnt l = k /\ ln <= l < ln + Z.of_nat n.
Proof. unfold linesOf. rewrite list_elem_of_filter, elem_of_seqZ. done. Qed.

Lemma linesOf_ascending k cnt ln n : StronglySorted Z.lt (linesOf k cnt ln n).
Proof.
  revert ln. induction n as [|n IH]; intros ln.
  - unfold linesOf. cbn. constructor.
  - rewrite linesOf_S. case_decide; cbn; [|done].
    constructor; [done |]. apply Forall_forall.
    intros l [_ ?]%elem_of_linesOf. lia.
Qed.

Lemma linesOf_NoDup k cnt ln n : NoDup (linesOf k cnt ln n).
Proof. unfold linesOf. apply NoDup_filter, NoDup_seqZ. Qed.

Lemma linesOf_length cnt ln n :
  (length (linesOf Hit cnt ln n) + length (linesOf Miss cnt ln n)
     + length (linesOf Ign cnt ln n))%nat = n.
Proof.
  revert ln. induction n as [|n IH]; intros ln; [done |].
  rewrite !linesOf_S, !length_app. specialize (IH (ln + 1)).
  destruct (classOf cnt ln); repeat case_decide; try done; cbn [length app]; lia.
Qed.

Lemma buildFileCoverage_Results ctx projRoot f r :
  Results (buildFileCoverage ctx projRoot f r) =
    match readLines projRoot f with
    | None => delete f (Results ctx)
    | Some n => <[f := classify r n]> (Results ctx)
    end.
Proof.
  unfold buildFileCoverage, readLines.
  destruct (Open (Join projRoot f)) as [file|]; [|done].
  destruct (lineCounter file) as [n [|]]; done.
Qed.

Lemma readLines_ok projRoot f file n :
  Open (Join projRoot f) = Some file -> lineCounter file = (n, false) ->
  readLines projRoot f = Some n.
Proof. unfold readLines. by intros -> ->. Qed.
End Classify.

Section ClassifyClaims.
Context {W : World}.
Variables (ctx : context) (projRoot f : string) (r : result).
Variables (file : Reader) (n : Z).
Hypothesis tally : unclassified r.
Hypothesis opened : Open (Join projRoot f) = Some file.
Hypothesis counted : lineCounter file = (n, false).

Lemma buildFileCoverage_classify :
  Results (buildFileCoverage ctx projRoot f r) !! f = Some (classify r n).
Proof.
  rewrite buildFileCoverage_Results, (readLines_ok _ _ _ _ opened counted).
  apply lookup_insert_eq.
Qed.

(** C1. The result [buildFileCoverage] stores for a tally whose source
    file was read and has [n] lines (a number of lines, so not negative)
    records [n] as its line count; its Hits, Misses and Ignored are
    pairwise disjoint, hold no line twice, hold together exactly the
    lines [0 .. n-1], and their lengths sum to [n]. *)
Theorem classified_partition :
  0 <= n ->
  exists r',
    Results (buildFileCoverage ctx projRoot f r) !! f = Some r' /\
    lines r' = n /\
    (forall ln, ~ (ln ∈ Hits r' /\ ln ∈ Misses r') /\
                ~ (ln ∈ Hits r' /\ ln ∈ Ignored r') /\
                ~ (ln ∈ Misses r' /\ ln ∈ Ignored r')) /\
    NoDup (Hits r' ++ Misses r' ++ Ignored r') /\
    (forall ln, ln ∈ Hits r' ++ Misses r' ++ Ignored r' <-> 0 <= ln < n) /\
    Z.of_nat (length (Hits r') + length (Misses r') + length (Ignored r')) = n.
Proof.
  intros Hn. exists (classify r n). split; [apply buildFileCoverage_classify |].
  destruct (classify_fields r n) as (_ & Hl & _).
  destruct (classify_lists r n tally) as (-> & -> & ->).
  split; [done |]. split; [|split; [|split]].
  - intros ln. rewrite !elem_of_linesOf. repeat split; intros [[? _] [? _]]; congruence.
  - rewrite !NoDup_app. repeat split; try apply linesOf_NoDup.
    + intros ln. rewrite elem_of_app, !elem_of_linesOf. intros [? _] [[? _]|[? _]]; congruence.
    + intros ln. rewrite !elem_of_linesOf. intros [? _] [? _]; congruence.
  - intros ln. rewrite !elem_of_app, !elem_of_linesOf.
    rewrite Z2Nat.id by done.
    split; [intros [[_ ?]|[[_ ?]|[_ ?]]]; lia |].
    intros ?. destruct (classOf (counts r) ln); tauto.
  - rewrite linesOf_length. by apply Z2Nat.id.
Qed.

(** C2. For every tally and every line [ln] in [0 .. n-1], classification
    puts [ln] in Ignored exactly when [counts] has no entry for it, in
    Hits exactly when the stored count is greater than 0, and in Misses
    exactly when the stored count is not greater than 0 - which for a
    count that is not negative, as a number of executions is, means
    exactly when it is 0; each of the three sequences is in ascending
    order. *)
Theorem classified_by_count :
  exists r',
    Results (buildFileCoverage ctx projRoot f r) !! f = Some r' /\
    (forall ln, 0 <= ln < n ->
       (ln ∈ Ignored r' <-> counts r !! ln = None) /\
       (ln ∈ Hits r' <-> exists c, counts r !! ln = Some c /\ 0 < c) /\
       (ln ∈ Misses r' <-> exists c, counts r !! ln = Some c /\ c <= 0) /\
       ((forall c, counts r !! ln = Some c -> 0 <= c) ->
          (ln ∈ Misses r' <-> counts r !! ln = Some 0))) /\
    StronglySorted Z.lt (Hits r') /\
    StronglySorted Z.lt (Misses r') /\
    StronglySorted Z.lt (Ignored r').
Proof.
  exists (classify r n). split; [apply buildFileCoverage_classify |].
  destruct (classify_lists r n tally) as (-> & -> & ->).
  split; [|repeat split; apply linesOf_ascending].
  intros ln Hln. rewrite !elem_of_linesOf.
  assert (0 <= ln < 0 + Z.of_nat (Z.to_nat n)) as Hin by lia.
  unfold classOf. destruct (counts r !! ln) as [c|] eqn:Hc.
  - destruct (Z.ltb_spec 0 c) as [Hpos|Hneg]; split_and!.
    + split; [by intros [? _] | done].
    + split; [by exists c | done].
    + split; [by intros [? _] | intros (c' & [= <-] & ?); lia].
    + intros _. split; [by intros [? _] | intros [= ->]; lia].
    + split; [by intros [? _] | done].
    + split; [by intros [? _] | intros (c' & [= <-] & ?); lia].
    + split; [by exists c | done].
    + intros Hnn. specialize (Hnn c eq_refl).
      split; [intros _; f_equal; lia | done].
  - split_and!.
    + done.
    + split; [by intros [? _] | by intros (c' & ? & _)].
    + split; [by intros [? _] | by intros (c' & ? & _)].
    + intros _. split; [by intros [? _] | done].
Qed.

(** C10. A count stored for a line at or beyond the file's line count [n]
    plays no part in classification: the result is stored without an
    error, no line [ln >= n] is in Hits, Misses or Ignored, and the
    counts map of the result is the one of the tally. *)
Theorem lines_beyond_end_excluded :
  exists r',
    Results (buildFileCoverage ctx projRoot f r) !! f = Some r' /\
    counts r' = counts r /\
    forall ln, n <= ln -> (ln ∉ Hits r') /\ (ln ∉ Misses r') /\ (ln ∉ Ignored r').
Proof.
  exists (classify r n). split; [apply buildFileCoverage_classify |].
  destruct (classify_fields r n) as (_ & _ & Hc).
  destruct (classify_lists r n tally) as (-> & -> & ->).
  split; [done |]. intros ln Hln.
  rewrite !elem_of_linesOf. repeat split; intros [_ ?]; lia.
Qed.
End ClassifyClaims.

(** ** The loop over the results map *)

Section BuildAll.
Context {W : World}.
Variable projRoot : string.

(** What the loop leaves under key [g]: the entries met are the stored
    ones, each key once. *)
Lemma buildAll_lookup order ctx g :
  NoDup order.*1 ->
  (forall fr, fr ∈ order -> Results ctx !! fr.1 = Some fr.2) ->
  Results (buildAll ctx projRoot order) !! g =
    if decide (g ∈ order.*1)
    then Results ctx !! g ≫= fun r => classify r <$> readLines projRoot g
    else Results ctx !! g.
Proof.
  revert ctx. induction order as [|[f r] order IH]; intros ctx Hnd Hst.
  - cbn. by rewrite decide_False by apply not_elem_of_nil.
  - cbn [buildAll foldl fmap list_fmap fst snd] in *.
    apply NoDup_cons in Hnd as [Hf Hnd].
    assert (forall g', g' ≠ f ->
              Results (buildFileCoverage ctx projRoot f r) !! g' = Results ctx !! g')
      as Hother.
    { intros g' Hne. rewrite buildFileCoverage_Results.
      destruct (readLines projRoot f);
        [by rewrite lookup_insert_ne | by rewrite lookup_delete_ne]. }
    fold (buildAll (buildFileCoverage ctx projRoot f r) projRoot order).
    rewrite IH; [|done|].
    + destruct (decide (g = f)) as [->|Hne].
      * rewrite decide_False by done.
        rewrite decide_True by (apply elem_of_cons; by left).
        assert (Results ctx !! f = Some r) as ->.
        { apply (Hst (f, r)). apply elem_of_cons. by left. }
        rewrite buildFileCoverage_Results. cbn.
        destruct (readLines projRoot f);
          [by rewrite lookup_insert_eq | by rewrite lookup_delete_eq].
      * rewrite Hother by done.
        destruct (decide (g ∈ order.*1)).
        -- rewrite decide_True by (apply elem_of_cons; by right). done.
        -- rewrite decide_False; [done |].
           intros [?|?]%elem_of_cons; done.
    + intros [f' r'] Hin. cbn. rewrite Hother.
      * apply (Hst (f', r')). apply elem_of_cons. by right.
      * intros ->. apply Hf. apply list_elem_of_fmap. by exists (f, r').
Qed.

(** Whatever order the runtime ranges over the map in, the loop leaves
    under every key the classified stored tally, or nothing when the
    source file could not be read. *)
Lemma buildAll_range order ctx g :
  order ≡ₚ map_to_list (Results ctx) ->
  Results (buildAll ctx projRoot order) !! g =
    Results ctx !! g ≫= fun r => classify r <$> readLines projRoot g.
Proof.
  intros Hperm. rewrite buildAll_lookup.
  - case_decide as Hin; [done |].
    destruct (Results ctx !! g) as [r|] eqn:Hg; [|done].
    exfalso. apply Hin. apply list_elem_of_fmap. exists (g, r). split; [done |].
    rewrite Hperm. by apply elem_of_map_to_list.
  - rewrite Hperm. apply NoDup_fst_map_to_list.
  - intros [f r]. rewrite Hperm. by intros ?%elem_of_map_to_list.
Qed.

Lemma buildAll_order order order' ctx :
  order ≡ₚ map_to_list (Results ctx) -> order' ≡ₚ map_to_list (Results ctx) ->
  Results (buildAll ctx projRoot order) = Results (buildAll ctx projRoot order').
Proof.
  intros H H'. apply map_eq. intros g. by rewrite !buildAll_range.
Qed.

(** C7. Whatever the map holds and in whatever order the loop of
    [collectCoverageContext] ranges over it: when opening or counting the
    lines of the source file of path [f] fails, the loop leaves no entry
    under [f], and under every other path [g] exactly what
    [buildFileCoverage] alone leaves there. *)
Theorem unreadable_file_dropped ctx order f :
  order ≡ₚ map_to_list (Results ctx) ->
  (Open (Join projRoot f) = None \/
   exists file n, Open (Join projRoot f) = Some file /\ lineCounter file = (n, true)) ->
  Results (buildAll ctx projRoot order) !! f = None /\
  forall g, g ≠ f ->
    match Results ctx !! g with
    | Some r =>
        Results (buildAll ctx projRoot order) !! g =
        Results (buildFileCoverage ctx projRoot g r) !! g
    | None => Results (buildAll ctx projRoot order) !! g = None
    end.
Proof.
  intros Hperm Hfail.
  assert (readLines projRoot f = None) as Hnone.
  { unfold readLines. destruct Hfail as [-> | (file & n & -> & ->)]; done. }
  split.
  - rewrite buildAll_range, Hnone by done. by destruct (Results ctx !! f).
  - intros g _. rewrite buildAll_range by done.
    destruct (Results ctx !! g) as [r|]; [|done].
    rewrite buildFileCoverage_Results. cbn.
    destruct (readLines projRoot g);
      [by rewrite lookup_insert_eq | by rewrite lookup_delete_eq].
Qed.
End BuildAll.

(** ** Invariants of the results map *)

Lemma ingestProfile_keyed ctx rn bs ctx' :
  ingestProfile ctx rn bs = Some ctx' ->
  (keyed ctx -> keyed ctx') /\ (tallies ctx -> tallies ctx').
Proof.
  unfold ingestProfile. cbn zeta.
  destruct (addBlocks _ bs) as [cnt|]; [|done]. intros [= <-].
  split; intros Hinv rn' r'; cbn;
    (destruct (decide (rn = rn')) as [<-|Hne];
      [rewrite lookup_insert_eq; intros [= <-]
      |rewrite lookup_insert_ne by done; apply Hinv]).
  - cbn. destruct (Results ctx !! rn) as [r0|] eqn:H0; [by apply Hinv | done].
  - unfold unclassified. cbn.
    destruct (Results ctx !! rn) as [r0|] eqn:H0; [by apply (Hinv rn) | done].
Qed.

Section Invariants.
Context {W : World}.
Variables coverageRoot projRoot : string.

Lemma ingestProfiles_keyed ps ctx ctx' :
  ingestProfiles ctx coverageRoot projRoot ps = Some ctx' ->
  (keyed ctx -> keyed ctx') /\ (tallies ctx -> tallies ctx').
Proof.
  revert ctx. induction ps as [|p ps IH]; intros ctx.
  - by intros [= <-].
  - rewrite ingestProfiles_cons.
    destruct (canonical coverageRoot projRoot p) as [rn|]; [|by intros [= <-]].
    destruct (ingestProfile ctx rn (Blocks p)) as [c|] eqn:Hp; [|done].
    cbn [mbind option_bind]. intros H.
    destruct (ingestProfile_keyed _ _ _ _ Hp), (IH _ H). split; auto.
Qed.

Lemma ingestFiles_keyed fps ctx ctx' :
  ingestFiles ctx coverageRoot projRoot fps = Some ctx' ->
  (keyed ctx -> keyed ctx') /\ (tallies ctx -> tallies ctx').
Proof.
  revert ctx. induction fps as [|fp fps IH]; intros ctx.
  - by intros [= <-].
  - cbn [ingestFiles]. unfold ingestCoverageFile.
    destruct (ParseProfiles fp) as [ps|]; [|apply IH].
    destruct (ingestProfiles ctx coverageRoot projRoot ps) as [c|] eqn:Hp; [|done].
    intros H. destruct (ingestProfiles_keyed _ _ _ Hp), (IH _ H). split; auto.
Qed.

Lemma buildFileCoverage_keyed ctx f r :
  keyed ctx -> filename r = f -> keyed (buildFileCoverage ctx projRoot f r).
Proof.
  intros Hk Hf g r'. rewrite buildFileCoverage_Results.
  destruct (readLines projRoot f) as [n|].
  - destruct (decide (f = g)) as [<-|Hne].
    + rewrite lookup_insert_eq. intros [= <-].
      by destruct (classify_fields r n) as (-> & _).
    + rewrite lookup_insert_ne by done. apply Hk.
  - intros [_ ?]%lookup_delete_Some. by apply Hk.
Qed.

Lemma buildAll_keyed ctx order :
  order ≡ₚ map_to_list (Results ctx) -> keyed ctx ->
  keyed (buildAll ctx projRoot order).
Proof.
  intros Hperm Hk g r'. rewrite buildAll_range by done.
  destruct (Results ctx !! g) as [r|] eqn:Hg; [|done]. cbn.
  destruct (readLines projRoot g) as [n|]; [|done]. intros [= <-].
  destruct (classify_fields r n) as (-> & _). by apply Hk.
Qed.

(** C9. After the ingestion of any list of profile files into the empty
    context every result is stored under its own [filename]; and
    classification keeps it so: one call of [buildFileCoverage] on a
    stored entry does, and so does the whole loop over the map. *)
Theorem filename_is_key sourceFiles ctx :
  ingestFiles emptyContext coverageRoot projRoot sourceFiles = Some ctx ->
  keyed ctx /\
  (forall f r, Results ctx !! f = Some r ->
     keyed (buildFileCoverage ctx projRoot f r)) /\
  (forall order, order ≡ₚ map_to_list (Results ctx) ->
     keyed (buildAll ctx projRoot order)).
Proof.
  intros H. destruct (ingestFiles_keyed _ _ _ H) as [Hk _].
  assert (keyed ctx) as Hctx.
  { apply Hk. intros rn r. cbn. by rewrite lookup_empty. }
  split; [done |]. split.
  - intros f r Hf. apply buildFileCoverage_keyed; [done |]. by apply Hctx.
  - intros order Hperm. by apply buildAll_keyed.
Qed.

(** Every result of a run is the classification of a tally whose source
    file was read. *)
Lemma collect_classified sourceFiles ctx f r' :
  collectCoverageContext coverageRoot projRoot sourceFiles = Some ctx ->
  Results ctx !! f = Some r' ->
  exists r n, unclassified r /\ filename r = f /\
              readLines projRoot f = Some n /\ r' = classify r n.
Proof.
  unfold collectCoverageContext.
  destruct (ingestFiles emptyContext coverageRoot projRoot sourceFiles)
    as [c|] eqn:Hin; [|done].
  intros [= <-]. cbn [Results set_Now].
  fold (buildAll c projRoot (map_to_list (Results c))).
  rewrite buildAll_range by done.
  destruct (Results c !! f) as [r|] eqn:Hf; [|done]. cbn.
  destruct (readLines projRoot f) as [n|]; [|done]. intros [= <-].
  destruct (ingestFiles_keyed _ _ _ Hin) as [Hk Ht].
  exists r, n. split_and!; try done.
  - apply (Ht ltac:(intros ? ?; cbn; by rewrite lookup_empty) f r Hf).
  - apply (Hk ltac:(intros ? ?; cbn; by rewrite lookup_empty) f r Hf).
Qed.
End Invariants.

(** ** Ordering of [float64] *)

Lemma SFltb_keyLt x y :
  x <> S754_nan -> y <> S754_nan ->
  (SFltb x y = true <-> keyLt (sfKey x) (sfKey y)).
Proof.
  intros Hx Hy. unfold SFltb, keyLt.
  destruct x as [sx|sx| |sx mx ex], y as [sy|sy| |sy my ey]; try done;
    try destruct sx; try destruct sy; cbn; try (split; [done || lia | lia || done]).
  - change (Pos.compare_cont Eq mx my) with (Pos.compare mx my).
    destruct (Z.compare_spec ex ey); [destruct (Pos.compare_spec mx my) | |];
      cbn; split; (done || lia).
  - change (Pos.compare_cont Eq mx my) with (Pos.compare mx my).
    destruct (Z.compare_spec ex ey); [destruct (Pos.compare_spec mx my) | |];
      cbn; split; (done || lia).
Qed.

Lemma is_nan_Prim2SF x : PrimFloat.is_nan x = false -> Prim2SF x <> S754_nan.
Proof.
  unfold PrimFloat.is_nan. rewrite FloatAxioms.eqb_spec. intros H Hnan.
  rewrite Hnan in H. done.
Qed.

Lemma ltb_keyLt x y :
  PrimFloat.is_nan x = false -> PrimFloat.is_nan y = false ->
  (PrimFloat.ltb x y = true <-> keyLt (sfKey (Prim2SF x)) (sfKey (Prim2SF y))).
Proof.
  intros Hx Hy. rewrite FloatAxioms.ltb_spec. by apply SFltb_keyLt; apply is_nan_Prim2SF.
Qed.

Lemma ltb_false_keyLt x y :
  PrimFloat.is_nan x = false -> PrimFloat.is_nan y = false ->
  (PrimFloat.ltb x y = false <-> ~ keyLt (sfKey (Prim2SF x)) (sfKey (Prim2SF y))).
Proof.
  intros Hx Hy. rewrite <- (ltb_keyLt _ _ Hx Hy). by destruct (PrimFloat.ltb x y).
Qed.

Lemma keyLt_trans a b c : keyLt a b -> keyLt b c -> keyLt a c.
Proof. unfold keyLt. lia. Qed.

Lemma keyLt_neg_trans a b c : ~ keyLt a b -> ~ keyLt b c -> ~ keyLt a c.
Proof. unfold keyLt. lia. Qed.

Lemma SFleb_keyLt x y :
  x <> S754_nan -> y <> S754_nan ->
  (SFleb x y = true <-> ~ keyLt (sfKey y) (sfKey x)).
Proof.
  intros Hx Hy. unfold SFleb, keyLt.
  destruct x as [sx|sx| |sx mx ex], y as [sy|sy| |sy my ey]; try done;
    try destruct sx; try destruct sy; cbn; try (split; [done || lia | lia || done]).
  - change (Pos.compare_cont Eq mx my) with (Pos.compare mx my).
    destruct (Z.compare_spec ex ey); [destruct (Pos.compare_spec mx my) | |];
      cbn; split; (done || lia).
  - change (Pos.compare_cont Eq mx my) with (Pos.compare mx my).
    destruct (Z.compare_spec ex ey); [destruct (Pos.compare_spec mx my) | |];
      cbn; split; (done || lia).
Qed.

(** On values other than NaN, [not (x < y)] is [y <= x]. *)
Lemma ltb_false_leb x y :
  PrimFloat.is_nan x = false -> PrimFloat.is_nan y = false ->
  PrimFloat.ltb x y = false -> PrimFloat.leb y x = true.
Proof.
  intros Hx Hy H. rewrite FloatAxioms.leb_spec.
  apply SFleb_keyLt; [by apply is_nan_Prim2SF..|].
  by apply ltb_false_keyLt.
Qed.

(** ** The two orderings of the hitlist *)

Lemma sliceSwap_Permutation r i j : sliceSwap r i j ≡ₚ r.
Proof.
  unfold sliceSwap.
  destruct (r !! i) as [n|] eqn:Hi; [|done].
  destruct (r !! j) as [m|] eqn:Hj; [|done].
  by apply Permutation_insert_swap.
Qed.

Lemma swapped_Permutation (data : Interface (list result)) d d' :
  Swap data = sliceSwap -> swapped data d d' -> d' ≡ₚ d.
Proof.
  intros Hsw. induction 1 as [d|d i j d' _ _ _ IH]; [done |].
  rewrite IH, Hsw. apply sliceSwap_Permutation.
Qed.

Lemma byLines_transitive d : transitiveOrdering (Reverse resultsByLines) d.
Proof.
  intros i j k Hi Hj Hk. cbn in *.
  destruct (lookup_lt_is_Some_2 d i Hi) as [a ->].
  destruct (lookup_lt_is_Some_2 d j Hj) as [b ->].
  destruct (lookup_lt_is_Some_2 d k Hk) as [c ->].
  split; intros H1 H2.
  - apply Z.ltb_lt in H1, H2. apply Z.ltb_lt. lia.
  - apply Z.ltb_ge in H1, H2. apply Z.ltb_ge. lia.
Qed.

Lemma byPercentage_transitive d :
  fractionsDefined d -> transitiveOrdering (Reverse resultsByPercentage) d.
Proof.
  intros Hd i j k Hi Hj Hk. cbn in *.
  destruct (lookup_lt_is_Some_2 d i Hi) as [a Ha].
  destruct (lookup_lt_is_Some_2 d j Hj) as [b Hb].
  destruct (lookup_lt_is_Some_2 d k Hk) as [c Hc].
  rewrite Ha, Hb, Hc.
  pose proof (Hd a (list_elem_of_lookup_2 _ _ _ Ha)) as Na.
  pose proof (Hd b (list_elem_of_lookup_2 _ _ _ Hb)) as Nb.
  pose proof (Hd c (list_elem_of_lookup_2 _ _ _ Hc)) as Nc.
  split; intros H1 H2.
  - apply ltb_keyLt in H1, H2; try done. apply ltb_keyLt; try done.
    by apply keyLt_trans with (sfKey (Prim2SF (MissFraction b))).
  - apply ltb_false_keyLt in H1, H2; try done. apply ltb_false_keyLt; try done.
    by apply keyLt_neg_trans with (sfKey (Prim2SF (MissFraction b))).
Qed.

Lemma rangeValues_length ctx vs :
  rangeValues ctx vs -> length vs = size (Results ctx).
Proof.
  unfold rangeValues. intros ->. by rewrite length_fmap, length_map_to_list.
Qed.

Lemma Sort_byLines d d' :
  Sort (Reverse resultsByLines) d d' ->
  d' ≡ₚ d /\
  forall i j a b, (i < j)%nat -> d' !! i = Some a -> d' !! j = Some b ->
    MissCount b <= MissCount a.
Proof.
  intros [Hsw Hsorted].
  split; [by apply (swapped_Permutation (Reverse resultsByLines) _ _ eq_refl Hsw) |].
  intros i j a b Hij Ha Hb.
  specialize (Hsorted (byLines_transitive d) i j Hij (lookup_lt_Some _ _ _ Hb)).
  cbn in Hsorted. rewrite Ha, Hb in Hsorted. by apply Z.ltb_ge.
Qed.

Lemma Sort_byPercentage d d' :
  fractionsDefined d ->
  Sort (Reverse resultsByPercentage) d d' ->
  d' ≡ₚ d /\
  forall i j a b, (i < j)%nat -> d' !! i = Some a -> d' !! j = Some b ->
    PrimFloat.leb (MissFraction b) (MissFraction a) = true.
Proof.
  intros Hd [Hsw Hsorted].
  assert (d' ≡ₚ d) as Hperm
    by apply (swapped_Permutation (Reverse resultsByPercentage) _ _ eq_refl Hsw).
  split; [done |]. intros i j a b Hij Ha Hb.
  specialize (Hsorted (byPercentage_transitive d Hd) i j Hij (lookup_lt_Some _ _ _ Hb)).
  cbn in Hsorted. rewrite Ha, Hb in Hsorted.
  apply ltb_false_leb; [..|done]; apply Hd; rewrite <- Hperm;
    by eapply list_elem_of_lookup_2.
Qed.

(** C5, as the code has it.  For every result set, each of the two slices
    [printHitlist] sorts is a rearrangement of the results of the context,
    and the one sorted by lines is non-increasing in [MissCount]; the one
    sorted by percentage is non-increasing in [MissFraction] when no miss
    fraction is NaN.  The order among entries with equal keys is whatever
    the [range] loop and [sort.Sort] made it. *)
Theorem hitlist_orderings ctx rs0 rs ps0 ps :
  rangeValues ctx rs0 -> Sort (Reverse resultsByLines) rs0 rs ->
  rangeValues ctx ps0 -> Sort (Reverse resultsByPercentage) ps0 ps ->
  rangeValues ctx rs /\ rangeValues ctx ps /\
  (forall i j a b, (i < j)%nat -> rs !! i = Some a -> rs !! j = Some b ->
     MissCount b <= MissCount a) /\
  (fractionsDefined ps0 ->
   forall i j a b, (i < j)%nat -> ps !! i = Some a -> ps !! j = Some b ->
     PrimFloat.leb (MissFraction b) (MissFraction a) = true).
Proof.
  intros Hrs0 Hrs Hps0 Hps.
  destruct (Sort_byLines _ _ Hrs) as [Hp1 Hs1].
  assert (ps ≡ₚ ps0) as Hp2.
  { destruct Hps as [Hsw _].
    apply (swapped_Permutation (Reverse resultsByPercentage) _ _ eq_refl Hsw). }
  unfold rangeValues in *. split_and!.
  - by rewrite Hp1.
  - by rewrite Hp2.
  - done.
  - intros Hdef. by destruct (Sort_byPercentage _ _ Hdef Hps) as [_ Hs2].
Qed.

(** ** The rows of the hitlist *)

Lemma pairLoop_zip rs ps n i rps :
  length ps = length rs -> (i + n)%nat = length rs ->
  pairLoop n i rs ps rps = Some (rps ++ drop i (zip rs ps)).
Proof.
  intros Hlen. revert i rps. induction n as [|n IH]; intros i rps Hn.
  - cbn. rewrite drop_ge; [by rewrite app_nil_r |].
    rewrite length_zip_with. lia.
  - cbn [pairLoop].
    destruct (lookup_lt_is_Some_2 rs i ltac:(lia)) as [a Ha].
    destruct (lookup_lt_is_Some_2 ps i ltac:(lia)) as [b Hb].
    rewrite Ha, Hb, IH by lia. rewrite <- app_assoc. do 2 f_equal.
    symmetry. apply drop_S. rewrite lookup_zip_with, Ha, Hb. done.
Qed.

Lemma rowLoop_rows rps n i tabs :
  (i + n <= length rps)%nat ->
  rowLoop n i rps tabs = Some (tabs ++ (hitlistRow <$> take n (drop i rps))).
Proof.
  revert i tabs. induction n as [|n IH]; intros i tabs Hn.
  - cbn. by rewrite app_nil_r.
  - cbn [rowLoop].
    destruct (lookup_lt_is_Some_2 rps i ltac:(lia)) as [p Hp].
    rewrite Hp, IH by lia. rewrite <- app_assoc. do 2 f_equal.
    rewrite (drop_S _ _ _ Hp). done.
Qed.

Lemma rowLoop_panics rps n i tabs :
  (i <= length rps < i + n)%nat -> rowLoop n i rps tabs = None.
Proof.
  revert i tabs. induction n as [|n IH]; intros i tabs Hn; [lia |].
  cbn [rowLoop]. destruct (rps !! i) as [p|] eqn:Hp; [|done].
  apply lookup_lt_Some in Hp. apply IH. lia.
Qed.

(** The rows [printHitlist] prints from two sorted slices of equal length:
    all of them for [limit == 0], the first [limit] of them for a [limit]
    up to their number, none for a negative [limit]. *)
Lemma hitlistRows_within rs ps limit :
  length ps = length rs -> limit <= Z.of_nat (length rs) ->
  hitlistRows rs ps limit =
    Some (hitlistRow <$>
            take (if limit =? 0 then length rs else Z.to_nat limit) (zip rs ps)).
Proof.
  intros Hlen Hlim. unfold hitlistRows.
  rewrite pairLoop_zip by done. rewrite drop_0. cbn [app].
  assert (length (zip rs ps) = length rs) as Hz by (rewrite length_zip_with; lia).
  rewrite rowLoop_rows; [|rewrite Hz; destruct (Z.eqb_spec limit 0); lia].
  rewrite drop_0, Hz. cbn [app].
  destruct (Z.eqb_spec limit 0); [by rewrite Nat2Z.id | done].
Qed.

Lemma hitlistRows_beyond rs ps limit :
  length ps = length rs -> Z.of_nat (length rs) < limit ->
  hitlistRows rs ps limit = None.
Proof.
  intros Hlen Hlim. unfold hitlistRows.
  rewrite pairLoop_zip by done. rewrite drop_0. cbn [app].
  assert (length (zip rs ps) = length rs) as Hz by (rewrite length_zip_with; lia).
  apply rowLoop_panics. rewrite Hz.
  destruct (Z.eqb_spec limit 0); lia.
Qed.

Lemma printHitlist_lengths ctx rs0 rs ps0 ps :
  rangeValues ctx rs0 -> Sort (Reverse resultsByLines) rs0 rs ->
  rangeValues ctx ps0 -> Sort (Reverse resultsByPercentage) ps0 ps ->
  length rs = size (Results ctx) /\ length ps = size (Results ctx).
Proof.
  intros Hrs0 [Hrs _] Hps0 [Hps _].
  apply (swapped_Permutation (Reverse resultsByLines) _ _ eq_refl) in Hrs.
  apply (swapped_Permutation (Reverse resultsByPercentage) _ _ eq_refl) in Hps.
  rewrite Hrs, Hps. split; by apply rangeValues_length.
Qed.

(** What [printHitlist] prints for a limit up to the number of results. *)
Lemma printHitlist_within ctx limit out :
  limit <= Z.of_nat (size (Results ctx)) -> printHitlist ctx limit out ->
  exists rows, out = Some rows /\
    length rows = (if limit =? 0 then size (Results ctx) else Z.to_nat limit).
Proof.
  intros Hlim (rs0 & rs & ps0 & ps & Hrs0 & Hrs & Hps0 & Hps & ->).
  destruct (printHitlist_lengths _ _ _ _ _ Hrs0 Hrs Hps0 Hps) as [Hl1 Hl2].
  rewrite hitlistRows_within by lia. eexists. split; [done |].
  rewrite length_fmap, length_take, length_zip_with, Hl1, Hl2.
  destruct (Z.eqb_spec limit 0); lia.
Qed.

(** C6, where the code departs from it.  With a limit greater than the
    number of results every run of [printHitlist] ends in the
    index-out-of-range panic at [rps[i]]: no row is printed, not the full
    number of rows. *)
Theorem hitlist_limit_beyond_rows ctx limit out :
  Z.of_nat (size (Results ctx)) < limit -> printHitlist ctx limit out ->
  out = None.
Proof.
  intros Hlim (rs0 & rs & ps0 & ps & Hrs0 & Hrs & Hps0 & Hps & ->).
  destruct (printHitlist_lengths _ _ _ _ _ Hrs0 Hrs Hps0 Hps) as [Hl1 Hl2].
  apply hitlistRows_beyond; lia.
Qed.

(** C4, where the code departs from it.  For a result with no hit and no
    miss, [MissFraction] divides [0] by [0]: the value is NaN, not [0]. *)
Theorem missFraction_of_nothing rz :
  Hits rz = [] -> Misses rz = [] ->
  PrimFloat.is_nan (MissFraction rz) = true /\
  PrimFloat.eqb (MissFraction rz) (float64 0) = false.
Proof.
  intros Hh Hm. unfold MissFraction, HitCount, MissCount. rewrite Hh, Hm.
  split; vm_compute; reflexivity.
Qed.

(** ** The claims on the small world *)

Lemma fractionsDefined_Forall rs :
  Forall (fun r => PrimFloat.is_nan (MissFraction r) = false) rs -> fractionsDefined rs.
Proof. intros H r Hr. by apply (proj1 (Forall_forall _ _) H). Qed.

(** A slice of two entries whose first is not less than the second is left
    as it is by a run of [sort.Sort] that calls [Swap] not once. *)
Lemma Sort_pair_sorted (data : Interface (list result)) a b :
  Len data [a; b] = 2%nat -> Less data [a; b] 1 0 = false ->
  Sort data [a; b] [a; b].
Proof.
  intros Hlen Hless. split; [apply swapped_refl |].
  intros _ i j Hij Hj. rewrite Hlen in Hj.
  destruct j as [|[|j]]; [lia | | lia]. destruct i as [|i]; [done | lia].
Qed.

Section OnDemo.
Import Demo.
Local Open Scope string_scope.
Local Open Scope list_scope.

(** The run of the README: two profiles and one that does not parse; the
    file [gone.go] cannot be opened and is dropped. *)
Example run_two_profiles :
  (fun r => (filename r, lines r, Hits r, Misses r, Ignored r))
    <$> values (run ["a.out"; "bad.out"; "b.out"]) =
  [("main.go", 5, [2], [1; 3], [0; 4]); ("util.go", 2, [0], [1], [])].
Proof. vm_compute. reflexivity. Qed.

(** Two profiles count line 0 of [util.go] 2 and 3 times: 5 is stored. *)
Example counts_are_summed :
  countAt (ingested ["a.out"; "b.out"]) "util.go" 0 = Some 5.
Proof. vm_compute. reflexivity. Qed.

(** A last line without separator is not counted. *)
Example unterminated_line_not_counted :
  lineCounter [([Byte.x61; Byte.x0a; Byte.x62], ReadEOF)] = (1, false).
Proof. vm_compute. reflexivity. Qed.

(** Counts are [int]s: a sum beyond the largest [int] wraps around. *)
Example count_wraps : addInt (2 ^ 62) (2 ^ 62) = min_int.
Proof. vm_compute. reflexivity. Qed.

Lemma ingest_twice_doubles_witness :
  ingestCoverageFile emptyContext coverageRoot projRoot "a.out"
    = Some (ingested ["a.out"]) /\
  exists ctx2,
    ingestCoverageFile (ingested ["a.out"]) coverageRoot projRoot "a.out"
      = Some ctx2 /\
    forall rn ln,
      let bs := merged coverageRoot projRoot rn (default [] (ParseProfiles "a.out")) in
      countAt (ingested ["a.out"]) rn ln =
        (if covered bs ln then Some (wrap (total bs ln)) else None) /\
      countAt ctx2 rn ln =
        (if covered bs ln then Some (wrap (2 * total bs ln)) else None) /\
      countAt ctx2 rn ln = (fun c => addInt c c) <$> countAt (ingested ["a.out"]) rn ln /\
      (forall c, countAt (ingested ["a.out"]) rn ln = Some c ->
         min_int <= 2 * c <= max_int -> countAt ctx2 rn ln = Some (2 * c)).
Proof.
  assert (ingestCoverageFile emptyContext coverageRoot projRoot "a.out"
            = Some (ingested ["a.out"])) as H by (vm_compute; reflexivity).
  split; [exact H |].
  exact (ingest_twice_doubles coverageRoot projRoot "a.out" _ H).
Defined.

Lemma ingest_order_irrelevant_witness :
  profilesOf ["a.out"; "b.out"] ≡ₚ profilesOf ["b.out"; "a.out"] /\
  Forall (resolves coverageRoot projRoot) (profilesOf ["a.out"; "b.out"]) /\
  ingestFiles emptyContext coverageRoot projRoot ["a.out"; "b.out"] =
    ingestFiles emptyContext coverageRoot projRoot ["b.out"; "a.out"] /\
  collectCoverageContext coverageRoot projRoot ["a.out"; "b.out"] =
    collectCoverageContext coverageRoot projRoot ["b.out"; "a.out"].
Proof.
  assert (profilesOf ["a.out"; "b.out"] ≡ₚ profilesOf ["b.out"; "a.out"]) as Hperm.
  { change (profilesOf ["a.out"; "b.out"])
      with (default [] (ParseProfiles "a.out") ++ default [] (ParseProfiles "b.out") ++ []).
    change (profilesOf ["b.out"; "a.out"])
      with (default [] (ParseProfiles "b.out") ++ default [] (ParseProfiles "a.out") ++ []).
    rewrite !app_nil_r. apply Permutation_app_comm. }
  assert (Forall (resolves coverageRoot projRoot) (profilesOf ["a.out"; "b.out"]))
    as Hok.
  { repeat apply Forall_cons_2; try apply Forall_nil_2;
      (eexists; vm_compute; reflexivity). }
  split; [exact Hperm |]. split; [exact Hok |].
  exact (ingest_order_irrelevant coverageRoot projRoot _ _ Hperm Hok).
Defined.

Lemma classified_partition_witness :
  let r := entry (ingested ["a.out"]) "main.go" in
  unclassified r /\
  Open (Join projRoot "main.go") = Some mainFile /\
  lineCounter mainFile = (5, false) /\
  0 <= 5 /\
  exists r',
    Results (buildFileCoverage (ingested ["a.out"]) projRoot "main.go" r) !! "main.go"
      = Some r' /\
    lines r' = 5 /\
    (forall ln, ~ (ln ∈ Hits r' /\ ln ∈ Misses r') /\
                ~ (ln ∈ Hits r' /\ ln ∈ Ignored r') /\
                ~ (ln ∈ Misses r' /\ ln ∈ Ignored r')) /\
    NoDup (Hits r' ++ Misses r' ++ Ignored r') /\
    (forall ln, ln ∈ Hits r' ++ Misses r' ++ Ignored r' <-> 0 <= ln < 5) /\
    Z.of_nat (length (Hits r') + length (Misses r') + length (Ignored r')) = 5.
Proof.
  intros r.
  assert (unclassified r) as Ht by (repeat split; vm_compute; reflexivity).
  assert (Open (Join projRoot "main.go") = Some mainFile) as Ho
    by (vm_compute; reflexivity).
  assert (lineCounter mainFile = (5, false)) as Hc by (vm_compute; reflexivity).
  assert (0 <= 5) as Hn by lia.
  split; [exact Ht |]. split; [exact Ho |]. split; [exact Hc |]. split; [exact Hn |].
  exact (classified_partition (ingested ["a.out"]) projRoot "main.go" r mainFile 5
           Ht Ho Hc Hn).
Defined.

Lemma classified_by_count_witness :
  let r := entry (ingested ["a.out"]) "main.go" in
  unclassified r /\
  Open (Join projRoot "main.go") = Some mainFile /\
  lineCounter mainFile = (5, false) /\
  exists r',
    Results (buildFileCoverage (ingested ["a.out"]) projRoot "main.go" r) !! "main.go"
      = Some r' /\
    (forall ln, 0 <= ln < 5 ->
       (ln ∈ Ignored r' <-> counts r !! ln = None) /\
       (ln ∈ Hits r' <-> exists c, counts r !! ln = Some c /\ 0 < c) /\
       (ln ∈ Misses r' <-> exists c, counts r !! ln = Some c /\ c <= 0) /\
       ((forall c, counts r !! ln = Some c -> 0 <= c) ->
          (ln ∈ Misses r' <-> counts r !! ln = Some 0))) /\
    StronglySorted Z.lt (Hits r') /\
    StronglySorted Z.lt (Misses r') /\
    StronglySorted Z.lt (Ignored r').
Proof.
  intros r.
  assert (unclassified r) as Ht by (repeat split; vm_compute; reflexivity).
  assert (Open (Join projRoot "main.go") = Some mainFile) as Ho
    by (vm_compute; reflexivity).
  assert (lineCounter mainFile = (5, false)) as Hc by (vm_compute; reflexivity).
  split; [exact Ht |]. split; [exact Ho |]. split; [exact Hc |].
  exact (classified_by_count (ingested ["a.out"]) projRoot "main.go" r mainFile 5
           Ht Ho Hc).
Defined.

Lemma lines_beyond_end_excluded_witness :
  let ctx := ingested ["a.out"; "b.out"] in
  let r := entry ctx "util.go" in
  unclassified r /\
  Open (Join projRoot "util.go") = Some utilFile /\
  lineCounter utilFile = (2, false) /\
  counts r !! 5 = Some 0 /\
  exists r',
    Results (buildFileCoverage ctx projRoot "util.go" r) !! "util.go" = Some r' /\
    counts r' = counts r /\
    forall ln, 2 <= ln -> (ln ∉ Hits r') /\ (ln ∉ Misses r') /\ (ln ∉ Ignored r').
Proof.
  intros ctx r.
  assert (unclassified r) as Ht by (repeat split; vm_compute; reflexivity).
  assert (Open (Join projRoot "util.go") = Some utilFile) as Ho
    by (vm_compute; reflexivity).
  assert (lineCounter utilFile = (2, false)) as Hc by (vm_compute; reflexivity).
  split; [exact Ht |]. split; [exact Ho |]. split; [exact Hc |].
  split; [vm_compute; reflexivity |].
  exact (lines_beyond_end_excluded ctx projRoot "util.go" r utilFile 2 Ht Ho Hc).
Defined.

Lemma unreadable_file_dropped_witness :
  let ctx := ingested ["a.out"; "b.out"] in
  let order := map_to_list (Results ctx) in
  order ≡ₚ map_to_list (Results ctx) /\
  is_Some (Results ctx !! "gone.go") /\
  Open (Join projRoot "gone.go") = None /\
  Results (buildAll ctx projRoot order) !! "gone.go" = None /\
  forall g, g ≠ "gone.go" ->
    match Results ctx !! g with
    | Some r =>
        Results (buildAll ctx projRoot order) !! g =
        Results (buildFileCoverage ctx projRoot g r) !! g
    | None => Results (buildAll ctx projRoot order) !! g = None
    end.
Proof.
  intros ctx order.
  assert (order ≡ₚ map_to_list (Results ctx)) as Hperm by reflexivity.
  assert (Open (Join projRoot "gone.go") = None) as Ho by (vm_compute; reflexivity).
  split; [exact Hperm |].
  split; [eexists; vm_compute; reflexivity |].
  split; [exact Ho |].
  exact (unreadable_file_dropped projRoot ctx order "gone.go" Hperm (or_introl Ho)).
Defined.

Lemma filename_is_key_witness :
  let ctx := ingested ["a.out"; "b.out"] in
  ingestFiles emptyContext coverageRoot projRoot ["a.out"; "b.out"] = Some ctx /\
  keyed ctx /\
  (forall f r, Results ctx !! f = Some r ->
     keyed (buildFileCoverage ctx projRoot f r)) /\
  (forall order, order ≡ₚ map_to_list (Results ctx) ->
     keyed (buildAll ctx projRoot order)).
Proof.
  intros ctx.
  assert (ingestFiles emptyContext coverageRoot projRoot ["a.out"; "b.out"] = Some ctx)
    as H by (vm_compute; reflexivity).
  split; [exact H |].
  exact (filename_is_key coverageRoot projRoot _ ctx H).
Defined.

Lemma hitlist_orderings_witness :
  let ctx := run ["a.out"; "b.out"] in
  let rs := [entry ctx "main.go"; entry ctx "util.go"] in
  rangeValues ctx rs /\ Sort (Reverse resultsByLines) rs rs /\
  Sort (Reverse resultsByPercentage) rs rs /\ fractionsDefined rs /\
  (forall i j a b, (i < j)%nat -> rs !! i = Some a -> rs !! j = Some b ->
     MissCount b <= MissCount a) /\
  (forall i j a b, (i < j)%nat -> rs !! i = Some a -> rs !! j = Some b ->
     PrimFloat.leb (MissFraction b) (MissFraction a) = true).
Proof.
  intros ctx rs.
  assert (rangeValues ctx rs) as Hr.
  { unfold rangeValues. vm_compute. reflexivity. }
  assert (Sort (Reverse resultsByLines) rs rs) as Hl
    by (apply Sort_pair_sorted; vm_compute; reflexivity).
  assert (Sort (Reverse resultsByPercentage) rs rs) as Hp
    by (apply Sort_pair_sorted; vm_compute; reflexivity).
  assert (fractionsDefined rs) as Hd.
  { apply fractionsDefined_Forall.
    repeat apply Forall_cons_2; try apply Forall_nil_2; vm_compute; reflexivity. }
  split; [exact Hr |]. split; [exact Hl |]. split; [exact Hp |]. split; [exact Hd |].
  split.
  - exact (proj1 (proj2 (proj2 (hitlist_orderings ctx rs rs rs rs Hr Hl Hr Hp)))).
  - exact (proj2 (proj2 (proj2 (hitlist_orderings ctx rs rs rs rs Hr Hl Hr Hp))) Hd).
Defined.

Lemma hitlist_limit_beyond_rows_witness :
  let ctx := run ["a.out"; "b.out"] in
  Z.of_nat (size (Results ctx)) < 3 /\ printHitlist ctx 3 None /\
  forall out, printHitlist ctx 3 out -> out = None.
Proof.
  intros ctx.
  assert (Z.of_nat (size (Results ctx)) < 3) as Hlim by (vm_compute; reflexivity).
  split; [exact Hlim |]. split.
  - exists [entry ctx "main.go"; entry ctx "util.go"],
           [entry ctx "main.go"; entry ctx "util.go"],
           [entry ctx "main.go"; entry ctx "util.go"],
           [entry ctx "main.go"; entry ctx "util.go"].
    split; [unfold rangeValues; vm_compute; reflexivity |].
    split; [apply Sort_pair_sorted; vm_compute; reflexivity |].
    split; [unfold rangeValues; vm_compute; reflexivity |].
    split; [apply Sort_pair_sorted; vm_compute; reflexivity |].
    vm_compute. reflexivity.
  - intros out Hout. exact (hitlist_limit_beyond_rows ctx 3 out Hlim Hout).
Defined.

Lemma missFraction_of_nothing_witness :
  let rz := entry (run ["c.out"]) "empty.go" in
  Results (run ["c.out"]) !! "empty.go" = Some rz /\
  Hits rz = [] /\ Misses rz = [] /\
  PrimFloat.is_nan (MissFraction rz) = true /\
  PrimFloat.eqb (MissFraction rz) (float64 0) = false.
Proof.
  intros rz.
  assert (Hits rz = []) as Hh by (vm_compute; reflexivity).
  assert (Misses rz = []) as Hm by (vm_compute; reflexivity).
  split; [vm_compute; reflexivity |]. split; [exact Hh |]. split; [exact Hm |].
  exact (missFraction_of_nothing rz Hh Hm).
Defined.

(** C5, as it is stated, fails.  Two results with one miss each: from the
    slice [main.go, util.go] that the [range] loop may build, [sort.Sort]
    may return it as it is or with the two entries exchanged - both are
    in descending order - so the entries with equal keys need not keep
    their order, and two runs on the same input may print different
    rankings. *)
Lemma equal_keys_order_not_kept :
  let ctx := run ["d.out"] in
  let rs0 := [entry ctx "main.go"; entry ctx "util.go"] in
  let rs := [entry ctx "util.go"; entry ctx "main.go"] in
  rangeValues ctx rs0 /\
  MissCount (entry ctx "main.go") = MissCount (entry ctx "util.go") /\
  Sort (Reverse resultsByLines) rs0 rs /\
  ~ tiesKeepOrder MissCount rs0 rs /\
  Sort (Reverse resultsByLines) rs0 rs0 /\
  rs0 <> rs.
Proof.
  intros ctx rs0 rs.
  assert (rs0 <> rs) as Hne.
  { intros H. apply (f_equal (fmap filename)) in H. vm_compute in H. discriminate H. }
  split_and!.
  - unfold rangeValues. vm_compute. reflexivity.
  - vm_compute. reflexivity.
  - split.
    + apply (swapped_step _ rs0 0%nat 1%nat); [cbn; lia | cbn; lia |].
      replace (Swap (Reverse resultsByLines) rs0 0%nat 1%nat) with rs
        by (vm_compute; reflexivity).
      apply swapped_refl.
    + intros _ i j Hij Hj. cbn in Hj.
      destruct j as [|[|j]]; [lia | | lia]. destruct i as [|i]; [|lia].
      vm_compute. reflexivity.
  - intros H. specialize (H 1). apply Hne.
    vm_compute in H. vm_compute. symmetry. exact H.
  - apply Sort_pair_sorted; vm_compute; reflexivity.
  - exact Hne.
Qed.
End OnDemo.

(** * Further properties of the code *)

(** ** lineCounter *)

Lemma bytesCount_app c1 c2 : bytesCount (c1 ++ c2) = bytesCount c1 + bytesCount c2.
Proof. unfold bytesCount. rewrite count_occ_app. lia. Qed.

Lemma newlines_contents r : newlines r = bytesCount (contents r).
Proof.
  induction r as [|[chunk err] r IH]; cbn; [done |].
  rewrite bytesCount_app. destruct err; [by rewrite IH | |];
    unfold bytesCount; cbn; lia.
Qed.

Lemma lineCounterLoop_failing r count : (lineCounterLoop r count).2 = failing r.
Proof.
  revert count. induction r as [|[chunk err] r IH]; intros count; cbn; [done |].
  destruct err; [apply IH | done | done].
Qed.

(** X1. However the file is cut into [Read] chunks, [lineCounter] returns
    the number of line separators among the bytes read up to the end of the
    file or the first error (when that number fits an [int]), and reports an
    error exactly when a [Read] failed before the end of the file. *)
Theorem lineCounter_counts_separators r :
  bytesCount (contents r) <= max_int ->
  lineCounter r = (bytesCount (contents r), failing r).
Proof.
  intros Hfit. rewrite <- newlines_contents in *.
  destruct (lineCounter_newlines r Hfit) as [H1 _].
  unfold lineCounter in *.
  pose proof (lineCounterLoop_failing r 0) as H2.
  destruct (lineCounterLoop r 0) as [n e]. cbn in *. by subst.
Qed.

(** ** Ingestion *)

Lemma set_counts_id r : set_counts r (counts r) = r.
Proof. by destruct r. Qed.

Lemma ingestProfile_entry ctx rn bs ctx' rn' :
  ingestProfile ctx rn bs = Some ctx' ->
  Results ctx' !! rn' =
    if decide (rn = rn')
    then Some (set_counts (default (newResult rn) (Results ctx !! rn))
                 (default ∅ (addBlocks
                    (counts (default (newResult rn) (Results ctx !! rn))) bs)))
    else Results ctx !! rn'.
Proof.
  unfold ingestProfile. cbn zeta.
  destruct (addBlocks _ bs) as [cnt|]; [|done]. intros [= <-]. cbn.
  case_decide as Hrn; [subst; by rewrite lookup_insert_eq | by rewrite lookup_insert_ne].
Qed.

Lemma ingestProfile_returns ctx rn bs :
  is_Some (ingestProfile ctx rn bs) <-> ~ Exists endless bs.
Proof.
  unfold ingestProfile. cbn zeta.
  rewrite <- (addBlocks_None (counts (default (newResult rn) (Results ctx !! rn)))).
  destruct (addBlocks _ bs); cbn.
  - split; [done | by eexists].
  - split; [by intros [? ?] | by intros []].
Qed.

Section IngestMore.
Context {W : World}.
Variables coverageRoot projRoot : string.

Lemma ingestCoverageFile_countAt fp ctx ctx' rn l :
  ingestCoverageFile ctx coverageRoot projRoot fp = Some ctx' ->
  countAt ctx' rn l =
    let bs := merged coverageRoot projRoot rn (default [] (ParseProfiles fp)) in
    if covered bs l then Some (wrap (default 0 (countAt ctx rn l) + total bs l))
    else countAt ctx rn l.
Proof.
  unfold ingestCoverageFile. destruct (ParseProfiles fp) as [ps|]; cbn.
  - apply ingestProfiles_countAt.
  - by intros [= <-].
Qed.

(** X2. What ingestion stores.  After the files [sourceFiles] are ingested
    into a context, a line of a path that no merged block covers has the
    entry it had, and a line some merged block covers has the [int] sum of
    what it had (0 when it had nothing) and the counts of all the blocks
    covering it, over all the files. *)
Theorem stored_counts_are_sums sourceFiles ctx ctx' rn l :
  ingestFiles ctx coverageRoot projRoot sourceFiles = Some ctx' ->
  countAt ctx' rn l =
    if covered (mergedFiles coverageRoot projRoot rn sourceFiles) l
    then Some (wrap (default 0 (countAt ctx rn l)
                     + total (mergedFiles coverageRoot projRoot rn sourceFiles) l))
    else countAt ctx rn l.
Proof.
  revert ctx. induction sourceFiles as [|fp fps IH]; intros ctx.
  - by intros [= <-].
  - cbn [ingestFiles]. unfold mergedFiles in *. cbn [map concat].
    destruct (ingestCoverageFile ctx coverageRoot projRoot fp) as [c|] eqn:Hfp; [|done].
    intros H. rewrite (IH _ H), (ingestCoverageFile_countAt _ _ _ rn l Hfp).
    cbn zeta. rewrite covered_app, total_app.
    destruct (covered (merged _ _ rn _) l) eqn:H1,
             (covered (concat _) l) eqn:H2; cbn; try done.
    + rewrite wrap_add_l. do 2 f_equal. lia.
    + rewrite (total_uncovered _ _ H2). do 2 f_equal. lia.
    + rewrite (total_uncovered _ _ H1). done.
Qed.

(** X3. The first file name of a profile file that does not resolve ends
    the ingestion of that file: the profiles before it are merged, the
    profiles after it are not looked at. *)
Theorem ingest_stops_at_unresolved fp ps1 p ps2 ctx :
  ParseProfiles fp = Some (ps1 ++ p :: ps2) ->
  Forall (resolves coverageRoot projRoot) ps1 ->
  canonical coverageRoot projRoot p = None ->
  ingestCoverageFile ctx coverageRoot projRoot fp =
  ingestProfiles ctx coverageRoot projRoot ps1.
Proof.
  intros Hfp Hok Hp. unfold ingestCoverageFile. rewrite Hfp.
  rewrite ingestProfiles_app by done.
  destruct (ingestProfiles ctx coverageRoot projRoot ps1) as [c|]; cbn; [|done].
  by rewrite Hp.
Qed.

(** The ingestion loop returns exactly when none of the blocks of the
    profiles it reaches is a non-empty block ending at the largest [int];
    what the context holds plays no part. *)
Theorem ingest_returns_iff ps ctx :
  is_Some (ingestProfiles ctx coverageRoot projRoot ps) <->
  ~ Exists endless (concat (Blocks <$> reached coverageRoot projRoot ps)).
Proof.
  revert ctx. induction ps as [|p ps IH]; intros ctx.
  - cbn. split; [by intros _ ?%Exists_nil | by eexists].
  - rewrite ingestProfiles_cons. cbn [reached].
    destruct (canonical coverageRoot projRoot p) as [rn|].
    + cbn [fmap list_fmap concat]. rewrite Exists_app.
      pose proof (ingestProfile_returns ctx rn (Blocks p)) as Hp.
      destruct (ingestProfile ctx rn (Blocks p)) as [c|]; cbn.
      * rewrite IH. assert (~ Exists endless (Blocks p)) by (apply Hp; by eexists).
        tauto.
      * split; [by intros [? ?] |]. intros Hno. exfalso.
        assert (is_Some (@None context)) as [? ?]; [|done].
        apply Hp. tauto.
    + cbn. split; [by intros _ ?%Exists_nil | by eexists].
Qed.

Lemma ingestProfiles_only_counts ps ctx ctx' rn r :
  ingestProfiles ctx coverageRoot projRoot ps = Some ctx' ->
  Results ctx !! rn = Some r ->
  exists cnt, Results ctx' !! rn = Some (set_counts r cnt).
Proof.
  revert ctx r. induction ps as [|p ps IH]; intros ctx r.
  - intros [= <-] Hr. exists (counts r). by rewrite set_counts_id.
  - rewrite ingestProfiles_cons.
    destruct (canonical coverageRoot projRoot p) as [rn'|].
    + destruct (ingestProfile ctx rn' (Blocks p)) as [c|] eqn:Hp; [|done].
      cbn. intros H Hr.
      pose proof (ingestProfile_entry _ _ _ _ rn Hp) as Hc. rewrite Hr in Hc.
      case_decide as Hrn.
      * subst rn'. rewrite Hr in Hc. cbn in Hc.
        destruct (IH _ _ H Hc) as [cnt Hcnt]. exists cnt.
        by rewrite Hcnt, set_counts_set_counts.
      * by apply (IH _ _ H).
    + intros [= <-] Hr. exists (counts r). by rewrite set_counts_id.
Qed.

(** X5. Ingestion writes counts and nothing else: an entry the context
    holds is still there after any files are ingested, with its file name,
    line count, Hits, Misses and Ignored as they were. *)
Theorem ingest_only_counts sourceFiles ctx ctx' rn r :
  ingestFiles ctx coverageRoot projRoot sourceFiles = Some ctx' ->
  Results ctx !! rn = Some r ->
  exists cnt, Results ctx' !! rn = Some (set_counts r cnt).
Proof.
  revert ctx r. induction sourceFiles as [|fp fps IH]; intros ctx r.
  - intros [= <-] Hr. exists (counts r). by rewrite set_counts_id.
  - cbn [ingestFiles]. unfold ingestCoverageFile.
    destruct (ParseProfiles fp) as [ps|]; [|apply IH].
    destruct (ingestProfiles ctx coverageRoot projRoot ps) as [c|] eqn:Hps; [|done].
    intros H Hr. destruct (ingestProfiles_only_counts _ _ _ _ _ Hps Hr) as [c1 H1].
    destruct (IH _ _ H H1) as [cnt Hcnt]. exists cnt.
    by rewrite Hcnt, set_counts_set_counts.
Qed.

(** X6. The paths of the context after the ingestion loop are those it had
    and the canonical paths of the profiles reached, also of a profile
    without blocks; a path that is new holds a fresh tally under its own
    name. *)
Theorem ingest_entries ps ctx ctx' rn :
  ingestProfiles ctx coverageRoot projRoot ps = Some ctx' ->
  (is_Some (Results ctx' !! rn) <->
     is_Some (Results ctx !! rn) \/
     exists p, p ∈ reached coverageRoot projRoot ps /\
               canonical coverageRoot projRoot p = Some rn) /\
  (Results ctx !! rn = None ->
   forall r', Results ctx' !! rn = Some r' ->
     exists cnt, r' = set_counts (newResult rn) cnt).
Proof.
  revert ctx. induction ps as [|p ps IH]; intros ctx.
  - intros [= <-]. cbn. split.
    + split; [by left |]. intros [?|(p & Hp & _)]; [done |].
      by apply not_elem_of_nil in Hp.
    + intros -> r'. done.
  - rewrite ingestProfiles_cons. cbn [reached].
    destruct (canonical coverageRoot projRoot p) as [rn'|] eqn:Hcan.
    + destruct (ingestProfile ctx rn' (Blocks p)) as [c|] eqn:Hp; [|done].
      cbn. intros H. destruct (IH _ H) as [IH1 IH2].
      pose proof (ingestProfile_entry _ _ _ _ rn Hp) as Hc. split.
      * rewrite IH1. case_decide as Hrn.
        -- subst rn'. rewrite Hc. split.
           ++ intros _. right. exists p. split; [apply elem_of_cons; by left | done].
           ++ intros _. left. by eexists.
        -- rewrite Hc. split.
           ++ intros [?|(q & Hq & Hqc)]; [by left |]. right. exists q.
              split; [apply elem_of_cons; by right | done].
           ++ intros [?|(q & Hq & Hqc)]; [by left |].
              apply elem_of_cons in Hq as [->|Hq]; [congruence |].
              right. by exists q.
      * intros Hnone r' Hr'. case_decide as Hrn.
        -- subst rn'. rewrite Hnone in Hc. cbn in Hc.
           destruct (ingestProfiles_only_counts _ _ _ _ _ H Hc) as [cnt Hcnt].
           exists cnt. rewrite Hcnt in Hr'. by injection Hr' as <-.
        -- rewrite <- Hc in Hnone. by apply IH2.
    + intros [= <-]. split.
      * split; [by left |]. intros [?|(q & Hq & _)]; [done |].
        by apply not_elem_of_nil in Hq.
      * intros Hn r'. by rewrite Hn.
Qed.

(** X7. A profile file that does not parse is passed over: ingesting a list
    of files is ingesting those of them that parse. *)
Theorem unparsed_files_ignored sourceFiles ctx :
  ingestFiles ctx coverageRoot projRoot (filter (fun fp => parses fp) sourceFiles) =
  ingestFiles ctx coverageRoot projRoot sourceFiles.
Proof.
  revert ctx. induction sourceFiles as [|fp fps IH]; intros ctx; [done |].
  rewrite filter_cons. case_decide as Hp.
  - cbn [ingestFiles].
    destruct (ingestCoverageFile ctx coverageRoot projRoot fp); [apply IH | done].
  - cbn [ingestFiles]. unfold ingestCoverageFile. unfold parses in Hp.
    destruct (ParseProfiles fp) as [ps|]; [by destruct Hp | apply IH].
Qed.
End IngestMore.

(** ** A whole run *)

Lemma linesOf_Permutation cnt ln n :
  linesOf Hit cnt ln n ++ linesOf Miss cnt ln n ++ linesOf Ign cnt ln n
    ≡ₚ seqZ ln (Z.of_nat n).
Proof.
  revert ln. induction n as [|n IH]; intros ln; [done |].
  rewrite !linesOf_S, seqZ_cons by lia.
  replace (Z.pred (Z.of_nat (S n))) with (Z.of_nat n) by lia.
  replace (Z.succ ln) with (ln + 1) by lia.
  rewrite <- (IH (ln + 1)).
  destruct (classOf cnt ln); repeat case_decide; try done; cbn [app].
  - by rewrite <- Permutation_middle.
  - by rewrite app_assoc, <- Permutation_middle, <- app_assoc.
Qed.

Lemma buildFileCoverage_Now {W : World} ctx projRoot f r :
  Now (buildFileCoverage ctx projRoot f r) = Now ctx.
Proof.
  unfold buildFileCoverage. destruct (Open (Join projRoot f)) as [file|]; [|done].
  destruct (lineCounter file) as [n [|]]; done.
Qed.

Lemma buildAll_Now {W : World} order ctx projRoot :
  Now (buildAll ctx projRoot order) = Now ctx.
Proof.
  unfold buildAll. revert ctx.
  induction order as [|[f r] order IH]; intros ctx; cbn [foldl fst snd]; [done |].
  by rewrite IH, buildFileCoverage_Now.
Qed.

Section Run.
Context {W : World}.
Variables coverageRoot projRoot : string.

(** X8. The loop over the results map leaves the same context whatever the
    order in which the runtime hands out the entries of the map. *)
Theorem classification_order_irrelevant ctx order order' :
  order ≡ₚ map_to_list (Results ctx) -> order' ≡ₚ map_to_list (Results ctx) ->
  buildAll ctx projRoot order = buildAll ctx projRoot order'.
Proof.
  intros H H'.
  pose proof (buildAll_order projRoot _ _ _ H H') as HR.
  pose proof (buildAll_Now order ctx projRoot) as HN.
  pose proof (buildAll_Now order' ctx projRoot) as HN'.
  destruct (buildAll ctx projRoot order), (buildAll ctx projRoot order').
  cbn in *. congruence.
Qed.

Lemma run_lookup sourceFiles ctx0 ctx f :
  ingestFiles emptyContext coverageRoot projRoot sourceFiles = Some ctx0 ->
  collectCoverageContext coverageRoot projRoot sourceFiles = Some ctx ->
  Results ctx !! f = Results ctx0 !! f ≫= fun r => classify r <$> readLines projRoot f.
Proof.
  unfold collectCoverageContext. intros -> [= <-]. cbn [Results set_Now].
  fold (buildAll ctx0 projRoot (map_to_list (Results ctx0))).
  by rewrite buildAll_range.
Qed.

(** X9. The paths in the context a run returns are the paths ingested
    whose source file could be opened and read to its end; the time stamp
    is the one taken after classification. *)
Theorem run_keys sourceFiles ctx0 ctx :
  ingestFiles emptyContext coverageRoot projRoot sourceFiles = Some ctx0 ->
  collectCoverageContext coverageRoot projRoot sourceFiles = Some ctx ->
  Now ctx = UnixNow /\
  forall f, is_Some (Results ctx !! f) <->
            is_Some (Results ctx0 !! f) /\ is_Some (readLines projRoot f).
Proof.
  intros H0 H. split.
  - unfold collectCoverageContext in H. rewrite H0 in H. by injection H as <-.
  - intros f. rewrite (run_lookup _ _ _ f H0 H).
    destruct (Results ctx0 !! f) as [r|]; cbn.
    + destruct (readLines projRoot f); cbn.
      * split; [intros _; split; by eexists | intros _; by eexists].
      * split; [by intros [? ?] | by intros [_ [? ?]]].
    + split; [by intros [? ?] | by intros [[? ?] _]].
Qed.

(** X10. In the context a run returns every result is stored under its
    file name, carries the line count read from its source file and the
    counts ingested for it, and its Hits, Misses and Ignored, each
    ascending, hold together every line index from 0 below the line count
    exactly once. *)
Theorem run_results_partition sourceFiles ctx f r' :
  collectCoverageContext coverageRoot projRoot sourceFiles = Some ctx ->
  Results ctx !! f = Some r' ->
  filename r' = f /\
  readLines projRoot f = Some (lines r') /\
  (forall l, counts r' !! l =
     countAt (default emptyContext
                (ingestFiles emptyContext coverageRoot projRoot sourceFiles)) f l) /\
  Hits r' ++ Misses r' ++ Ignored r' ≡ₚ seqZ 0 (lines r') /\
  StronglySorted Z.lt (Hits r') /\
  StronglySorted Z.lt (Misses r') /\
  StronglySorted Z.lt (Ignored r').
Proof.
  intros H Hf.
  destruct (ingestFiles emptyContext coverageRoot projRoot sourceFiles)
    as [ctx0|] eqn:H0; [|unfold collectCoverageContext in H; by rewrite H0 in H].
  pose proof (run_lookup _ _ _ f H0 H) as Hl. rewrite Hf in Hl.
  destruct (Results ctx0 !! f) as [r|] eqn:Hr; [|done]. cbn in Hl.
  destruct (readLines projRoot f) as [n|] eqn:Hn; [|done]. injection Hl as ->.
  destruct (ingestFiles_keyed _ _ _ _ _ H0) as [Hk Ht].
  assert (keyed emptyContext) as Hk0 by (intros ? ?; cbn; by rewrite lookup_empty).
  assert (tallies emptyContext) as Ht0 by (intros ? ?; cbn; by rewrite lookup_empty).
  destruct (classify_fields r n) as (Hfn & Hln & Hcn).
  destruct (classify_lists r n (Ht Ht0 f r Hr)) as (-> & -> & ->).
  rewrite Hfn, Hln, Hcn. split_and!.
  - by apply (Hk Hk0).
  - done.
  - intros l. unfold countAt. cbn. by rewrite Hr.
  - rewrite linesOf_Permutation.
    destruct (Z.le_gt_cases 0 n); [by rewrite Z2Nat.id |].
    rewrite !seqZ_nil by lia. done.
  - apply linesOf_ascending.
  - apply linesOf_ascending.
  - apply linesOf_ascending.
Qed.
End Run.

(** ** The sort.Interface methods *)

(** X11. [Swap] at two indices of the slice exchanges the two entries and
    leaves every other entry and the length as they are; swapping twice
    restores the slice. *)
Theorem Swap_exchanges r i j :
  (i < length r)%nat -> (j < length r)%nat ->
  length (sliceSwap r i j) = length r /\
  sliceSwap r i j !! i = r !! j /\
  sliceSwap r i j !! j = r !! i /\
  (forall k, k <> i -> k <> j -> sliceSwap r i j !! k = r !! k) /\
  sliceSwap (sliceSwap r i j) i j = r.
Proof.
  intros Hi Hj.
  assert (forall r, (i < length r)%nat -> (j < length r)%nat ->
            length (sliceSwap r i j) = length r /\
            sliceSwap r i j !! i = r !! j /\
            sliceSwap r i j !! j = r !! i /\
            (forall k, k <> i -> k <> j -> sliceSwap r i j !! k = r !! k)) as Hswap.
  { clear r Hi Hj. intros r Hi Hj. unfold sliceSwap.
    destruct (lookup_lt_is_Some_2 r i Hi) as [n Hn].
    destruct (lookup_lt_is_Some_2 r j Hj) as [m Hm].
    rewrite Hn, Hm. split_and!.
    - by rewrite !length_insert.
    - by rewrite list_lookup_insert_eq by (by rewrite length_insert).
    - destruct (decide (i = j)) as [->|Hne].
      + rewrite list_lookup_insert_eq by (by rewrite length_insert). congruence.
      + rewrite list_lookup_insert_ne by done. by rewrite list_lookup_insert_eq.
    - intros k Hki Hkj. by rewrite !list_lookup_insert_ne. }
  destruct (Hswap r Hi Hj) as (Hlen & Hsi & Hsj & Hsk).
  split_and!; try done.
  destruct (Hswap (sliceSwap r i j)) as (_ & Hi2 & Hj2 & Hk2); [lia.. |].
  apply list_eq. intros k.
  destruct (decide (k = i)) as [->|Hki]; [by rewrite Hi2, Hsj |].
  destruct (decide (k = j)) as [->|Hkj]; [by rewrite Hj2, Hsi |].
  by rewrite Hk2, Hsk.
Qed.

(** X12. [Less] of [resultsByLines] is the ordering [sort.Interface] asks
    for, on every slice: no entry is less than itself, [Less] is
    transitive, and so is its negation. *)
Theorem byLines_Less_ordering d :
  (forall i, Less resultsByLines d i i = false) /\
  transitiveOrdering resultsByLines d.
Proof.
  split.
  - intros i. cbn. destruct (d !! i); [apply Z.ltb_irrefl | done].
  - intros i j k Hi Hj Hk. cbn in *.
    destruct (lookup_lt_is_Some_2 d i Hi) as [a ->].
    destruct (lookup_lt_is_Some_2 d j Hj) as [b ->].
    destruct (lookup_lt_is_Some_2 d k Hk) as [c ->].
    split; intros H1 H2.
    + apply Z.ltb_lt in H1, H2. apply Z.ltb_lt. lia.
    + apply Z.ltb_ge in H1, H2. apply Z.ltb_ge. lia.
Qed.

Lemma SFcompare_refl s : s <> S754_nan -> SFcompare s s = Some Eq.
Proof.
  destruct s as [[|]|[|]| |[|] m e]; try done; intros _; cbn;
    rewrite Z.compare_refl;
    change (Pos.compare_cont Eq m m) with (Pos.compare m m);
    by rewrite Pos.compare_refl.
Qed.

Lemma is_nan_true_Prim2SF x : PrimFloat.is_nan x = true -> Prim2SF x = S754_nan.
Proof.
  unfold PrimFloat.is_nan. rewrite FloatAxioms.eqb_spec. unfold SFeqb. intros H.
  destruct (Prim2SF x) as [sx|sx| |sx m e] eqn:Hx; [..|done| ];
    by rewrite SFcompare_refl in H.
Qed.

Lemma ltb_nan_r x y : PrimFloat.is_nan y = true -> PrimFloat.ltb x y = false.
Proof.
  intros Hy. rewrite FloatAxioms.ltb_spec, (is_nan_true_Prim2SF _ Hy).
  unfold SFltb. by destruct (Prim2SF x).
Qed.

Lemma ltb_nan_l x y : PrimFloat.is_nan x = true -> PrimFloat.ltb x y = false.
Proof.
  intros Hx. rewrite FloatAxioms.ltb_spec, (is_nan_true_Prim2SF _ Hx). done.
Qed.

(** X13. [Less] of [resultsByPercentage] is the ordering [sort.Interface]
    asks for on every slice none of whose miss fractions is NaN. *)
Theorem byPercentage_Less_ordering d :
  fractionsDefined d ->
  (forall i, Less resultsByPercentage d i i = false) /\
  transitiveOrdering resultsByPercentage d.
Proof.
  intros Hd. split.
  - intros i. cbn. destruct (d !! i) as [a|] eqn:Ha; [|done].
    pose proof (Hd a (list_elem_of_lookup_2 _ _ _ Ha)) as Na.
    apply ltb_false_keyLt; try done. unfold keyLt. lia.
  - intros i j k Hi Hj Hk. cbn in *.
    destruct (lookup_lt_is_Some_2 d i Hi) as [a Ha].
    destruct (lookup_lt_is_Some_2 d j Hj) as [b Hb].
    destruct (lookup_lt_is_Some_2 d k Hk) as [c Hc].
    rewrite Ha, Hb, Hc.
    pose proof (Hd a (list_elem_of_lookup_2 _ _ _ Ha)) as Na.
    pose proof (Hd b (list_elem_of_lookup_2 _ _ _ Hb)) as Nb.
    pose proof (Hd c (list_elem_of_lookup_2 _ _ _ Hc)) as Nc.
    split; intros H1 H2.
    + apply ltb_keyLt in H1, H2; try done. apply ltb_keyLt; try done.
      by apply keyLt_trans with (sfKey (Prim2SF (MissFraction b))).
    + apply ltb_false_keyLt in H1, H2; try done. apply ltb_false_keyLt; try done.
      by apply keyLt_neg_trans with (sfKey (Prim2SF (MissFraction b))).
Qed.

(** X14. With a result whose miss fraction is NaN between two results of
    which the first has the smaller miss fraction, [Less] of
    [resultsByPercentage] is not the ordering [sort.Interface] asks for:
    the NaN entry is not less and not greater than either, yet the first
    is less than the third. *)
Theorem byPercentage_Less_not_transitive a b c :
  PrimFloat.is_nan (MissFraction b) = true ->
  PrimFloat.ltb (MissFraction a) (MissFraction c) = true ->
  ~ transitiveOrdering resultsByPercentage [a; b; c].
Proof.
  intros Hb Hac Htr.
  destruct (Htr 0%nat 1%nat 2%nat) as [_ H]; [cbn; lia.. |].
  change (PrimFloat.ltb (MissFraction a) (MissFraction b) = false ->
          PrimFloat.ltb (MissFraction b) (MissFraction c) = false ->
          PrimFloat.ltb (MissFraction a) (MissFraction c) = false) in H.
  rewrite H in Hac; [done | by apply ltb_nan_r | by apply ltb_nan_l].
Qed.

(** ** The rows printed within the limit *)

(** X15. For a limit up to the number of results, [printHitlist] prints,
    from two rearrangements of the results - the first non-increasing in
    [MissCount] - the rows pairing their entries position by position:
    all rows for the limit 0, the first [limit] rows for a positive limit,
    and no row for a negative one. *)
Theorem hitlist_rows_within_limit ctx limit out :
  limit <= Z.of_nat (size (Results ctx)) -> printHitlist ctx limit out ->
  exists rs ps,
    rangeValues ctx rs /\ rangeValues ctx ps /\
    (forall i j a b, (i < j)%nat -> rs !! i = Some a -> rs !! j = Some b ->
       MissCount b <= MissCount a) /\
    out = Some (hitlistRow <$>
                  take (if limit =? 0 then size (Results ctx) else Z.to_nat limit)
                    (zip rs ps)).
Proof.
  intros Hlim (rs0 & rs & ps0 & ps & Hrs0 & Hrs & Hps0 & Hps & ->).
  destruct (printHitlist_lengths _ _ _ _ _ Hrs0 Hrs Hps0 Hps) as [Hl1 Hl2].
  destruct (Sort_byLines _ _ Hrs) as [Hp1 Hs1].
  destruct Hps as [Hps _].
  apply (swapped_Permutation (Reverse resultsByPercentage) _ _ eq_refl) in Hps.
  exists rs, ps. unfold rangeValues in *. split_and!.
  - by rewrite Hp1.
  - by rewrite Hps.
  - done.
  - rewrite hitlistRows_within by lia. by rewrite Hl1.
Qed.

(** ** escaper.Read *)

Lemma escape1_length b : (1 <= length (escape1 b) <= 2)%nat.
Proof. unfold escape1. repeat case_decide; cbn; lia. Qed.

Lemma escape_cons b l : escape (b :: l) = escape1 b ++ escape l.
Proof. done. Qed.

Lemma escape_app l1 l2 : escape (l1 ++ l2) = escape l1 ++ escape l2.
Proof. unfold escape. by rewrite map_app, concat_app. Qed.

Lemma setByte_app w q b y :
  setByte (w ++ y :: q) (length w) b = Some (w ++ b :: q).
Proof.
  unfold setByte. rewrite decide_True by (rewrite length_app; cbn; lia).
  f_equal. replace (length w) with (length w + 0)%nat by lia.
  by rewrite insert_app_r.
Qed.

Lemma setByte_end w b : setByte w (length w) b = None.
Proof. unfold setByte. by rewrite decide_False by lia. Qed.

(** The [switch] with room for what it writes. *)
Lemma escByte_fits w q b :
  (length (escape1 b) <= length q)%nat ->
  escByte (w ++ q) (length w) b =
    Some (w ++ escape1 b ++ drop (length (escape1 b)) q,
          (length w + length (escape1 b) - 1)%nat).
Proof.
  unfold escByte, escape1. intros Hq.
  repeat case_decide; cbn in Hq |- *.
  - destruct q as [|y1 [|y2 q]]; cbn in Hq; try lia.
    rewrite setByte_app.
    replace (w ++ Byte.x5c :: y2 :: q) with ((w ++ [Byte.x5c]) ++ y2 :: q)
      by (by rewrite <- app_assoc).
    replace (S (length w)) with (length (w ++ [Byte.x5c]))
      by (rewrite length_app; cbn; lia).
    rewrite setByte_app, <- app_assoc. cbn. do 2 f_equal.
    rewrite length_app. cbn. lia.
  - destruct q as [|y1 [|y2 q]]; cbn in Hq; try lia.
    rewrite setByte_app.
    replace (w ++ Byte.x5c :: y2 :: q) with ((w ++ [Byte.x5c]) ++ y2 :: q)
      by (by rewrite <- app_assoc).
    replace (S (length w)) with (length (w ++ [Byte.x5c]))
      by (rewrite length_app; cbn; lia).
    rewrite setByte_app, <- app_assoc. cbn. do 2 f_equal.
    rewrite length_app. cbn. lia.
  - destruct q as [|y1 q]; cbn in Hq; try lia.
    rewrite setByte_app. cbn. do 2 f_equal. lia.
Qed.

(** The [switch] on a byte written in two steps, with room for one. *)
Lemma escByte_panics w y b :
  special b -> escByte (w ++ [y]) (length w) b = None.
Proof.
  unfold escByte, special. intros Hb.
  assert (forall x c, setByte (w ++ [x]) (S (length w)) c = None) as Hend.
  { intros x c. replace (S (length w)) with (length (w ++ [x]))
      by (rewrite length_app; cbn; lia). apply setByte_end. }
  repeat case_decide; rewrite ?setByte_app, ?Hend; try done. tauto.
Qed.

(** [k] turns of the loop whose output has room in the buffer. *)
Lemma escLoop_run k fuel new w q i :
  (i + k <= length new)%nat ->
  (length (escape (take k (drop i new))) <= length q)%nat ->
  escLoop (k + fuel) new (w ++ q) i (length w) =
  escLoop fuel new
    (w ++ escape (take k (drop i new))
       ++ drop (length (escape (take k (drop i new)))) q)
    (i + k) (length w + length (escape (take k (drop i new)))).
Proof.
  revert w q i. induction k as [|k IH]; intros w q i Hi Hq.
  - cbn. by rewrite !Nat.add_0_r.
  - destruct (lookup_lt_is_Some_2 new i ltac:(lia)) as [b Hb].
    rewrite (drop_S _ _ _ Hb) in *. cbn [take] in *.
    rewrite escape_cons in *. rewrite length_app in Hq.
    pose proof (escape1_length b) as Hb1.
    cbn [Nat.add escLoop]. rewrite Hb.
    rewrite decide_True by (rewrite length_app; lia).
    rewrite escByte_fits by lia.
    replace (S (length w + length (escape1 b) - 1))
      with (length (w ++ escape1 b)) by (rewrite length_app; lia).
    rewrite (app_assoc w (escape1 b)).
    rewrite IH; [|lia|rewrite length_drop; lia].
    rewrite drop_drop, !length_app, <- !app_assoc.
    f_equal; lia.
Qed.

Lemma escape_length_ge l : (length l <= length (escape l))%nat.
Proof.
  induction l as [|b l IH]; [done |].
  rewrite escape_cons, length_app. pose proof (escape1_length b). cbn. lia.
Qed.

Lemma escape_plain l : Forall (fun b => ~ special b) l -> escape l = l.
Proof.
  induction 1 as [|b l Hb _ IH]; [done |].
  rewrite escape_cons, IH. unfold escape1, special in *.
  repeat case_decide; try done; tauto.
Qed.

Lemma setByte_Some p n b p' :
  setByte p n b = Some p' -> (n < length p)%nat /\ length p' = length p.
Proof.
  unfold setByte. case_decide; [|done]. intros [= <-]. by rewrite length_insert.
Qed.

Lemma escByte_inv p n b p' n' :
  escByte p n b = Some (p', n') -> length p' = length p /\ (n' < length p)%nat.
Proof.
  unfold escByte. destruct (decide (b = Byte.x22 \/ b = Byte.x5c)) as [_|_];
    [|destruct (decide (b = Byte.x0a)) as [_|_]].
  - destruct (setByte p n Byte.x5c) as [p1|] eqn:H1; [|done].
    destruct (setByte p1 (S n) b) as [p2|] eqn:H2; [|done].
    intros [= <- <-]. apply setByte_Some in H1, H2. lia.
  - destruct (setByte p n Byte.x5c) as [p1|] eqn:H1; [|done].
    destruct (setByte p1 (S n) Byte.x6e) as [p2|] eqn:H2; [|done].
    intros [= <- <-]. apply setByte_Some in H1, H2. lia.
  - destruct (setByte p n b) as [p1|] eqn:H1; [|done].
    intros [= <- <-]. apply setByte_Some in H1. lia.
Qed.

Lemma escLoop_inv fuel new p i n p' i' n' :
  escLoop fuel new p i n = Some (p', i', n') -> (n <= length p)%nat ->
  length p' = length p /\ (n' <= length p)%nat.
Proof.
  revert p i n. induction fuel as [|fuel IH]; intros p i n; cbn.
  - by intros [= <- <- <-].
  - destruct (new !! i) as [b|]; [|by intros [= <- <- <-]].
    case_decide as Hlt; [|by intros [= <- <- <-]].
    destruct (escByte p n b) as [[p1 n1]|] eqn:Hb; [|done].
    destruct (escByte_inv _ _ _ _ _ Hb) as [Hl Hn].
    intros Hrec _. destruct (IH _ _ _ Hrec) as [H1 H2]; [lia |]. split; lia.
Qed.

Section EscaperRead.
Variables (e : escaper) (p chunk : list Byte.byte) (err : readErr) (r' : Reader).
Hypothesis next : esc_r e = (chunk, err) :: r'.

Lemma escaperRead_loop :
  (length (old e) + length chunk <= length p)%nat ->
  escaperRead e p =
    match escLoop (length (old e ++ chunk)) (old e ++ chunk) p 0 0 with
    | None => None
    | Some (p', i, n) =>
        if decide (length p < i)%nat
        then None
        else Some (mkEscaper r' [] (debug e), p', n, err)
    end.
Proof.
  intros Hlen. unfold escaperRead. rewrite next.
  rewrite !decide_False by lia. cbn zeta.
  destruct (escLoop _ _ p 0 0) as [[[p' i] n]|]; [|done].
  case_decide; [|done].
  unfold sliceFrom. by rewrite decide_False by lia.
Qed.

(** X16. When the escaped form of the bytes at hand - those kept from the
    last call and those the reader delivers - has room in [p], [Read]
    writes exactly that escaped form at the start of [p], leaves the rest of
    [p] as it is, returns its length and the reader's error, and keeps no
    byte. *)
Theorem escaper_Read_fits :
  (length (escape (old e ++ chunk)) <= length p)%nat ->
  escaperRead e p =
    Some (mkEscaper r' [] (debug e),
          escape (old e ++ chunk) ++ drop (length (escape (old e ++ chunk))) p,
          length (escape (old e ++ chunk)), err).
Proof.
  intros Hfit. pose proof (escape_length_ge (old e ++ chunk)) as Hge.
  rewrite length_app in Hge. rewrite escaperRead_loop by lia.
  pose proof (escLoop_run (length (old e ++ chunk)) 0 (old e ++ chunk) [] p 0) as Hrun.
  rewrite Nat.add_0_r, drop_0, firstn_all in Hrun. cbn [app length Nat.add] in Hrun.
  rewrite Hrun by (done || lia). cbn [escLoop].
  rewrite decide_False; [done |]. rewrite length_app. lia.
Qed.

(** X17. A chunk without quote, backslash and line feed, read into a
    buffer it fits with nothing kept from before, arrives unchanged. *)
Theorem escaper_Read_plain :
  old e = [] -> (length chunk <= length p)%nat ->
  Forall (fun b => ~ special b) chunk ->
  escaperRead e p =
    Some (mkEscaper r' [] (debug e), chunk ++ drop (length chunk) p,
          length chunk, err).
Proof.
  intros Hold Hlen Hplain.
  pose proof (escape_plain _ Hplain) as Hesc.
  pose proof (escaper_Read_fits) as Hfit. rewrite Hold in Hfit. cbn [app] in Hfit.
  rewrite Hesc in Hfit. by apply Hfit.
Qed.

(** X18. When the escaped form of the first [k] bytes at hand fills [p]
    exactly and more bytes are at hand, [Read] returns [len(p)] with that
    escaped form in [p] and keeps nothing: the bytes from the [k]-th on are
    neither delivered nor kept for the next call. *)
Theorem escaper_Read_truncates k :
  (length (old e) + length chunk <= length p)%nat ->
  (k < length (old e ++ chunk))%nat ->
  length (escape (take k (old e ++ chunk))) = length p ->
  escaperRead e p =
    Some (mkEscaper r' [] (debug e), escape (take k (old e ++ chunk)),
          length p, err).
Proof.
  intros Hlen Hk Hfull. rewrite escaperRead_loop by done.
  set (new := old e ++ chunk) in *.
  pose proof (escLoop_run k (length new - k) new [] p 0) as Hrun.
  replace (k + (length new - k))%nat with (length new) in Hrun by lia.
  rewrite drop_0 in Hrun. cbn [app length Nat.add] in Hrun.
  rewrite Hrun by lia. rewrite Hfull, drop_all, app_nil_r.
  destruct (length new - k)%nat as [|fuel] eqn:Hfuel; [lia |].
  cbn [escLoop]. destruct (lookup_lt_is_Some_2 new k Hk) as [b ->].
  rewrite decide_False by lia.
  rewrite decide_False; [done |]. unfold new in Hk. rewrite length_app in Hk. lia.
Qed.

(** X19. When the escaped form of the first [k] bytes at hand leaves one
    byte of room in [p] and the [k]-th byte is a quote, a backslash or a
    line feed, [Read] panics: the second byte of the escape is written
    beyond the end of [p]. *)
Theorem escaper_Read_panics k b :
  (length (old e) + length chunk <= length p)%nat ->
  (old e ++ chunk) !! k = Some b -> special b ->
  S (length (escape (take k (old e ++ chunk)))) = length p ->
  escaperRead e p = None.
Proof.
  intros Hlen Hk Hb Hroom. rewrite escaperRead_loop by done.
  set (new := old e ++ chunk) in *.
  pose proof (lookup_lt_Some _ _ _ Hk) as Hlt.
  pose proof (escLoop_run k (length new - k) new [] p 0) as Hrun.
  replace (k + (length new - k))%nat with (length new) in Hrun by lia.
  rewrite drop_0 in Hrun. cbn [app length Nat.add] in Hrun.
  rewrite Hrun by lia.
  destruct (length new - k)%nat as [|fuel] eqn:Hfuel; [lia |].
  cbn [escLoop]. rewrite Hk.
  assert (exists y, drop (length (escape (take k new))) p = [y]) as [y Hy].
  { destruct (drop (length (escape (take k new))) p) as [|y [|z q]] eqn:Hd.
    - apply (f_equal length) in Hd. rewrite length_drop in Hd. cbn in Hd. lia.
    - by exists y.
    - apply (f_equal length) in Hd. rewrite length_drop in Hd. cbn in Hd. lia. }
  rewrite Hy. rewrite decide_True by (rewrite length_app; cbn; lia).
  by rewrite escByte_panics.
Qed.
End EscaperRead.

(** X20. Whatever the reader and the buffer, a call of [Read] that returns
    leaves [e.old] empty, leaves the buffer its length, and returns an [n]
    of at most [len(p)]. *)
Theorem escaper_Read_returns e p e' p' n err :
  escaperRead e p = Some (e', p', n, err) ->
  old e' = [] /\ length p' = length p /\ (n <= length p)%nat.
Proof.
  unfold escaperRead. case_decide; [done |].
  destruct (match esc_r e with
            | [] => ([], ReadEOF, [])
            | (c, er) :: r0 => (c, er, r0)
            end) as [[chunk er] r0].
  case_decide as Hc; [done |]. cbn zeta.
  destruct (escLoop _ _ p 0 0) as [[[p1 i] n1]|] eqn:Hloop; [|done].
  destruct (escLoop_inv _ _ _ _ _ _ _ _ Hloop) as [Hl Hn]; [lia |].
  case_decide as Hi.
  - unfold sliceFrom. rewrite decide_False by lia. done.
  - intros [= <- <- <- <-]. done.
Qed.

(** ** The first revision of the hitlist *)

(** X21. In the first revision of the hitlist, for two sorted slices of
    equal length: without [--limit], or with one that does not parse, every
    row is printed; with a limit [l] up to their number the first [l] rows
    - none for [l <= 0], also for [--limit=0] - and with a greater limit
    the loop panics at [rps[i]]. *)
Theorem hitlist_first_revision rs ps lim :
  length ps = length rs ->
  hitlistRows1 rs ps lim =
    match lim with
    | Some (Some l) =>
        if decide (l <= Z.of_nat (length rs))
        then Some (hitlistRow <$> take (Z.to_nat l) (zip rs ps))
        else None
    | _ => Some (hitlistRow <$> zip rs ps)
    end.
Proof.
  intros Hlen. unfold hitlistRows1.
  rewrite pairLoop_zip by done. rewrite drop_0. cbn [app].
  assert (length (zip rs ps) = length rs) as Hz by (rewrite length_zip_with; lia).
  assert (rowLoop (Z.to_nat (Z.of_nat (length (zip rs ps)))) 0 (zip rs ps) [] =
          Some (hitlistRow <$> zip rs ps)) as Hall.
  { rewrite rowLoop_rows by lia. rewrite drop_0, Nat2Z.id, firstn_all. done. }
  destruct lim as [[l|]|]; try done.
  case_decide.
  - rewrite rowLoop_rows by lia. by rewrite drop_0.
  - apply rowLoop_panics. lia.
Qed.

(** ** The ingestion loops of main.go *)

Section Revisions.
Context {W : World}.
Variables coverageRoot projRoot : string.

(** X22. In [main.go] a profile whose file name does not resolve is passed
    over and the profiles after it are still merged: the loop does what it
    does on the profiles that resolve. *)
Theorem main_go_skips_unresolved ps ctx :
  Rev0.ingestProfiles ctx coverageRoot projRoot ps =
  Rev0.ingestProfiles ctx coverageRoot projRoot
    (filter (fun p => is_Some (canonical coverageRoot projRoot p)) ps).
Proof.
  revert ctx. induction ps as [|p ps IH]; intros ctx; [done |].
  rewrite filter_cons. cbn [Rev0.ingestProfiles].
  destruct (canonical coverageRoot projRoot p) as [rn|] eqn:Hp.
  - rewrite decide_True by (by eexists). cbn [Rev0.ingestProfiles]. rewrite Hp.
    destruct (addBlocks _ (Blocks p)); [apply IH | done].
  - rewrite decide_False by (by intros [? ?]). apply IH.
Qed.

Lemma main_go_ingestProfiles_sameCounts ps ctx0 ctx :
  Forall (resolves coverageRoot projRoot) ps ->
  sameCounts ctx0 ctx ->
  match Rev0.ingestProfiles ctx0 coverageRoot projRoot ps,
        ingestProfiles ctx coverageRoot projRoot ps with
  | Some c0, Some c => sameCounts c0 c
  | None, None => True
  | _, _ => False
  end.
Proof.
  intros Hok. revert ctx0 ctx.
  induction Hok as [|p ps [rn Hp] _ IH]; intros ctx0 ctx Hsame; [done |].
  cbn [Rev0.ingestProfiles ingestProfiles]. rewrite Hp. cbn zeta.
  assert (Rev0.counts (default (Rev0.mkResult ∅ [] [] []) (Rev0.Results ctx0 !! rn)) =
          counts (default (newResult rn) (Results ctx !! rn))) as ->.
  { specialize (Hsame rn).
    destruct (Rev0.Results ctx0 !! rn), (Results ctx !! rn); cbn in *; congruence. }
  destruct (addBlocks _ (Blocks p)) as [cnt|]; [|done].
  apply IH. intros rn'. cbn.
  destruct (decide (rn = rn')) as [<-|Hne].
  - by rewrite !lookup_insert_eq.
  - rewrite !lookup_insert_ne by done. apply Hsame.
Qed.

(** X23. When every file name resolves, the ingestion loops of [main.go]
    and the ingestion of the last revision, started on contexts with the
    same paths and counts, both return or both do not, and return contexts
    with the same paths and counts. *)
Theorem main_go_same_counts sourceFiles ctx0 ctx :
  Forall (resolves coverageRoot projRoot) (profilesOf sourceFiles) ->
  sameCounts ctx0 ctx ->
  match Rev0.ingestFiles ctx0 coverageRoot projRoot sourceFiles,
        ingestFiles ctx coverageRoot projRoot sourceFiles with
  | Some c0, Some c => sameCounts c0 c
  | None, None => True
  | _, _ => False
  end.
Proof.
  revert ctx0 ctx. induction sourceFiles as [|fp fps IH]; intros ctx0 ctx Hok Hsame;
    [done |].
  unfold profilesOf in *. cbn [map concat] in Hok.
  apply Forall_app in Hok as [Hfp Hok].
  cbn [Rev0.ingestFiles ingestFiles]. unfold ingestCoverageFile.
  destruct (ParseProfiles fp) as [ps|]; cbn in Hfp; [|by apply IH].
  pose proof (main_go_ingestProfiles_sameCounts ps ctx0 ctx Hfp Hsame) as Hps.
  destruct (Rev0.ingestProfiles ctx0 coverageRoot projRoot ps),
           (ingestProfiles ctx coverageRoot projRoot ps); try done.
  by apply IH.
Qed.
End Revisions.

(** ** The further properties on the small worlds *)

Section OnDemoMore.
Import Demo.
Local Open Scope string_scope.
Local Open Scope list_scope.

Lemma lineCounter_counts_separators_witness :
  bytesCount (contents mainFile) <= max_int /\
  lineCounter mainFile = (bytesCount (contents mainFile), failing mainFile).
Proof.
  assert (bytesCount (contents mainFile) <= max_int) as H
    by (vm_compute; discriminate).
  split; [exact H |]. exact (lineCounter_counts_separators mainFile H).
Defined.

Lemma stored_counts_are_sums_witness :
  let fps := ["b.out"] in
  let ctx := ingested ["a.out"] in
  let ctx' := ingested ["a.out"; "b.out"] in
  ingestFiles ctx coverageRoot projRoot fps = Some ctx' /\
  countAt ctx' "util.go" 0 =
    if covered (mergedFiles coverageRoot projRoot "util.go" fps) 0
    then Some (wrap (default 0 (countAt ctx "util.go" 0)
                     + total (mergedFiles coverageRoot projRoot "util.go" fps) 0))
    else countAt ctx "util.go" 0.
Proof.
  intros fps ctx ctx'.
  assert (ingestFiles ctx coverageRoot projRoot fps = Some ctx') as H
    by (vm_compute; reflexivity).
  split; [exact H |].
  exact (stored_counts_are_sums coverageRoot projRoot fps ctx ctx' "util.go" 0 H).
Defined.

Lemma ingest_stops_at_unresolved_witness :
  let ps1 := [mkProfile "app/main.go" [mkBlock 1 2 1]] in
  let p := mkProfile "lib/x.go" [mkBlock 1 1 1] in
  let ps2 := [mkProfile "app/util.go" [mkBlock 0 0 4]] in
  @ParseProfiles Demo2.world "e.out" = Some (ps1 ++ p :: ps2) /\
  Forall (@resolves Demo2.world coverageRoot projRoot) ps1 /\
  @canonical Demo2.world coverageRoot projRoot p = None /\
  @ingestCoverageFile Demo2.world emptyContext coverageRoot projRoot "e.out" =
  @ingestProfiles Demo2.world emptyContext coverageRoot projRoot ps1.
Proof.
  intros ps1 p ps2.
  assert (@ParseProfiles Demo2.world "e.out" = Some (ps1 ++ p :: ps2)) as H1
    by (vm_compute; reflexivity).
  assert (Forall (@resolves Demo2.world coverageRoot projRoot) ps1) as H2
    by (repeat apply Forall_cons_2; try apply Forall_nil_2; eexists; vm_compute; reflexivity).
  assert (@canonical Demo2.world coverageRoot projRoot p = None) as H3
    by (vm_compute; reflexivity).
  split; [exact H1 |]. split; [exact H2 |]. split; [exact H3 |].
  exact (@ingest_stops_at_unresolved Demo2.world coverageRoot projRoot
           "e.out" ps1 p ps2 emptyContext H1 H2 H3).
Defined.

Lemma ingest_only_counts_witness :
  let ctx := ingested ["a.out"] in
  let ctx' := ingested ["a.out"; "b.out"] in
  let r := entry ctx "util.go" in
  ingestFiles ctx coverageRoot projRoot ["b.out"] = Some ctx' /\
  Results ctx !! "util.go" = Some r /\
  exists cnt, Results ctx' !! "util.go" = Some (set_counts r cnt).
Proof.
  intros ctx ctx' r.
  assert (ingestFiles ctx coverageRoot projRoot ["b.out"] = Some ctx') as H
    by (vm_compute; reflexivity).
  assert (Results ctx !! "util.go" = Some r) as Hr by (vm_compute; reflexivity).
  split; [exact H |]. split; [exact Hr |].
  exact (ingest_only_counts coverageRoot projRoot ["b.out"] ctx ctx' "util.go" r H Hr).
Defined.

Lemma ingest_entries_witness :
  let ps := default [] (ParseProfiles "b.out") in
  let ctx := ingested ["a.out"] in
  let ctx' := ingested ["a.out"; "b.out"] in
  ingestProfiles ctx coverageRoot projRoot ps = Some ctx' /\
  (is_Some (Results ctx' !! "gone.go") <->
     is_Some (Results ctx !! "gone.go") \/
     exists p, p ∈ reached coverageRoot projRoot ps /\
               canonical coverageRoot projRoot p = Some "gone.go") /\
  (Results ctx !! "gone.go" = None ->
   forall r', Results ctx' !! "gone.go" = Some r' ->
     exists cnt, r' = set_counts (newResult "gone.go") cnt).
Proof.
  intros ps ctx ctx'.
  assert (ingestProfiles ctx coverageRoot projRoot ps = Some ctx') as H
    by (vm_compute; reflexivity).
  split; [exact H |].
  exact (ingest_entries coverageRoot projRoot ps ctx ctx' "gone.go" H).
Defined.

Lemma classification_order_irrelevant_witness :
  let ctx := ingested ["a.out"; "b.out"] in
  let order := map_to_list (Results ctx) in
  let order' := reverse (map_to_list (Results ctx)) in
  order ≡ₚ map_to_list (Results ctx) /\ order' ≡ₚ map_to_list (Results ctx) /\
  order <> order' /\
  buildAll ctx projRoot order = buildAll ctx projRoot order'.
Proof.
  intros ctx order order'.
  assert (order ≡ₚ map_to_list (Results ctx)) as H by reflexivity.
  assert (order' ≡ₚ map_to_list (Results ctx)) as H' by apply reverse_Permutation.
  split; [exact H |]. split; [exact H' |]. split.
  - intros Heq. apply (f_equal (fmap fst)) in Heq. vm_compute in Heq. discriminate Heq.
  - exact (classification_order_irrelevant projRoot ctx order order' H H').
Defined.

Lemma run_keys_witness :
  let fps := ["a.out"; "b.out"] in
  ingestFiles emptyContext coverageRoot projRoot fps = Some (ingested fps) /\
  collectCoverageContext coverageRoot projRoot fps = Some (run fps) /\
  Now (run fps) = UnixNow /\
  forall f, is_Some (Results (run fps) !! f) <->
            is_Some (Results (ingested fps) !! f) /\ is_Some (readLines projRoot f).
Proof.
  intros fps.
  assert (ingestFiles emptyContext coverageRoot projRoot fps = Some (ingested fps))
    as H0 by (vm_compute; reflexivity).
  assert (collectCoverageContext coverageRoot projRoot fps = Some (run fps))
    as H by (vm_compute; reflexivity).
  split; [exact H0 |]. split; [exact H |].
  exact (run_keys coverageRoot projRoot fps _ _ H0 H).
Defined.

Lemma run_results_partition_witness :
  let fps := ["a.out"; "b.out"] in
  let r' := entry (run fps) "main.go" in
  collectCoverageContext coverageRoot projRoot fps = Some (run fps) /\
  Results (run fps) !! "main.go" = Some r' /\
  filename r' = "main.go" /\
  readLines projRoot "main.go" = Some (lines r') /\
  (forall l, counts r' !! l =
     countAt (default emptyContext
                (ingestFiles emptyContext coverageRoot projRoot fps)) "main.go" l) /\
  Hits r' ++ Misses r' ++ Ignored r' ≡ₚ seqZ 0 (lines r') /\
  StronglySorted Z.lt (Hits r') /\
  StronglySorted Z.lt (Misses r') /\
  StronglySorted Z.lt (Ignored r').
Proof.
  intros fps r'.
  assert (collectCoverageContext coverageRoot projRoot fps = Some (run fps))
    as H by (vm_compute; reflexivity).
  assert (Results (run fps) !! "main.go" = Some r') as Hr by (vm_compute; reflexivity).
  split; [exact H |]. split; [exact Hr |].
  exact (run_results_partition coverageRoot projRoot fps _ "main.go" r' H Hr).
Defined.

Lemma Swap_exchanges_witness :
  let r := [entry (run ["a.out"; "b.out"]) "main.go";
            entry (run ["a.out"; "b.out"]) "util.go"] in
  (0 < length r)%nat /\ (1 < length r)%nat /\
  length (sliceSwap r 0 1) = length r /\
  sliceSwap r 0 1 !! 0%nat = r !! 1%nat /\
  sliceSwap r 0 1 !! 1%nat = r !! 0%nat /\
  (forall k, k <> 0%nat -> k <> 1%nat -> sliceSwap r 0 1 !! k = r !! k) /\
  sliceSwap (sliceSwap r 0 1) 0 1 = r.
Proof.
  intros r.
  assert (0 < length r)%nat as H0 by (cbn; lia).
  assert (1 < length r)%nat as H1 by (cbn; lia).
  split; [exact H0 |]. split; [exact H1 |].
  exact (Swap_exchanges r 0 1 H0 H1).
Defined.

Lemma byPercentage_Less_ordering_witness :
  let d := [entry (run ["a.out"; "b.out"]) "main.go";
            entry (run ["a.out"; "b.out"]) "util.go"] in
  fractionsDefined d /\
  (forall i, Less resultsByPercentage d i i = false) /\
  transitiveOrdering resultsByPercentage d.
Proof.
  intros d.
  assert (fractionsDefined d) as Hd.
  { apply fractionsDefined_Forall.
    repeat apply Forall_cons_2; try apply Forall_nil_2; vm_compute; reflexivity. }
  split; [exact Hd |]. exact (byPercentage_Less_ordering d Hd).
Defined.

Lemma byPercentage_Less_not_transitive_witness :
  let a := entry (run ["a.out"; "b.out"]) "util.go" in
  let b := entry (run ["c.out"]) "empty.go" in
  let c := entry (run ["a.out"; "b.out"]) "main.go" in
  PrimFloat.is_nan (MissFraction b) = true /\
  PrimFloat.ltb (MissFraction a) (MissFraction c) = true /\
  ~ transitiveOrdering resultsByPercentage [a; b; c].
Proof.
  intros a b c.
  assert (PrimFloat.is_nan (MissFraction b) = true) as Hb by (vm_compute; reflexivity).
  assert (PrimFloat.ltb (MissFraction a) (MissFraction c) = true) as Hac
    by (vm_compute; reflexivity).
  split; [exact Hb |]. split; [exact Hac |].
  exact (byPercentage_Less_not_transitive a b c Hb Hac).
Defined.

Lemma hitlist_rows_within_limit_witness :
  let ctx := run ["a.out"; "b.out"] in
  let rs := [entry ctx "main.go"; entry ctx "util.go"] in
  let out := hitlistRows rs rs 1 in
  1 <= Z.of_nat (size (Results ctx)) /\ printHitlist ctx 1 out /\
  exists rs ps,
    rangeValues ctx rs /\ rangeValues ctx ps /\
    (forall i j a b, (i < j)%nat -> rs !! i = Some a -> rs !! j = Some b ->
       MissCount b <= MissCount a) /\
    out = Some (hitlistRow <$>
                  take (if (1 =? 0)%Z then size (Results ctx) else Z.to_nat 1) (zip rs ps)).
Proof.
  intros ctx rs out.
  assert (1 <= Z.of_nat (size (Results ctx))) as Hlim by (vm_compute; discriminate).
  assert (printHitlist ctx 1 out) as Hout.
  { exists rs, rs, rs, rs.
    split; [unfold rangeValues; vm_compute; reflexivity |].
    split; [apply Sort_pair_sorted; vm_compute; reflexivity |].
    split; [unfold rangeValues; vm_compute; reflexivity |].
    split; [apply Sort_pair_sorted; vm_compute; reflexivity |].
    reflexivity. }
  split; [exact Hlim |]. split; [exact Hout |].
  exact (hitlist_rows_within_limit ctx 1 out Hlim Hout).
Defined.

Lemma escaper_Read_fits_witness :
  let e := newEscaper [(Demo2.quoted, ReadOk)] in
  let p := Demo2.buffer 8 in
  esc_r e = [(Demo2.quoted, ReadOk)] /\
  (length (escape (old e ++ Demo2.quoted)) <= length p)%nat /\
  escaperRead e p =
    Some (mkEscaper [] [] (debug e),
          escape (old e ++ Demo2.quoted)
            ++ drop (length (escape (old e ++ Demo2.quoted))) p,
          length (escape (old e ++ Demo2.quoted)), ReadOk).
Proof.
  intros e p.
  assert (esc_r e = [(Demo2.quoted, ReadOk)]) as Hn by reflexivity.
  assert (length (escape (old e ++ Demo2.quoted)) <= length p)%nat as Hfit
    by (vm_compute; lia).
  split; [exact Hn |]. split; [exact Hfit |].
  exact (escaper_Read_fits e p Demo2.quoted ReadOk [] Hn Hfit).
Defined.

Lemma escaper_Read_plain_witness :
  let chunk := [Byte.x61; Byte.x62] in
  let e := newEscaper [(chunk, ReadEOF)] in
  let p := Demo2.buffer 2 in
  esc_r e = [(chunk, ReadEOF)] /\ old e = [] /\ (length chunk <= length p)%nat /\
  Forall (fun b => ~ special b) chunk /\
  escaperRead e p =
    Some (mkEscaper [] [] (debug e), chunk ++ drop (length chunk) p,
          length chunk, ReadEOF).
Proof.
  intros chunk e p.
  assert (esc_r e = [(chunk, ReadEOF)]) as Hn by reflexivity.
  assert (old e = []) as Ho by reflexivity.
  assert (length chunk <= length p)%nat as Hl by (vm_compute; lia).
  assert (Forall (fun b => ~ special b) chunk) as Hp.
  { repeat apply Forall_cons_2; try apply Forall_nil_2;
      intros [H|[H|H]]; discriminate H. }
  split; [exact Hn |]. split; [exact Ho |]. split; [exact Hl |]. split; [exact Hp |].
  exact (escaper_Read_plain e p chunk ReadEOF [] Hn Ho Hl Hp).
Defined.

Lemma escaper_Read_truncates_witness :
  let e := newEscaper [(Demo2.quoted, ReadOk)] in
  let p := Demo2.buffer 4 in
  esc_r e = [(Demo2.quoted, ReadOk)] /\
  (length (old e) + length Demo2.quoted <= length p)%nat /\
  (3 < length (old e ++ Demo2.quoted))%nat /\
  length (escape (take 3 (old e ++ Demo2.quoted))) = length p /\
  escaperRead e p =
    Some (mkEscaper [] [] (debug e), escape (take 3 (old e ++ Demo2.quoted)),
          length p, ReadOk).
Proof.
  intros e p.
  assert (esc_r e = [(Demo2.quoted, ReadOk)]) as Hn by reflexivity.
  assert (length (old e) + length Demo2.quoted <= length p)%nat as Hl
    by (vm_compute; lia).
  assert (3 < length (old e ++ Demo2.quoted))%nat as Hk by (vm_compute; lia).
  assert (length (escape (take 3 (old e ++ Demo2.quoted))) = length p) as Hf
    by (vm_compute; reflexivity).
  split; [exact Hn |]. split; [exact Hl |]. split; [exact Hk |]. split; [exact Hf |].
  exact (escaper_Read_truncates e p Demo2.quoted ReadOk [] Hn 3 Hl Hk Hf).
Defined.

Lemma escaper_Read_panics_witness :
  let chunk := [Byte.x61; Byte.x22] in
  let e := newEscaper [(chunk, ReadOk)] in
  let p := Demo2.buffer 2 in
  esc_r e = [(chunk, ReadOk)] /\
  (length (old e) + length chunk <= length p)%nat /\
  (old e ++ chunk) !! 1%nat = Some Byte.x22 /\ special Byte.x22 /\
  S (length (escape (take 1 (old e ++ chunk)))) = length p /\
  escaperRead e p = None.
Proof.
  intros chunk e p.
  assert (esc_r e = [(chunk, ReadOk)]) as Hn by reflexivity.
  assert (length (old e) + length chunk <= length p)%nat as Hl by (vm_compute; lia).
  assert ((old e ++ chunk) !! 1%nat = Some Byte.x22) as Hk by reflexivity.
  assert (special Byte.x22) as Hb by (by left).
  assert (S (length (escape (take 1 (old e ++ chunk)))) = length p) as Hr
    by (vm_compute; reflexivity).
  split; [exact Hn |]. split; [exact Hl |]. split; [exact Hk |]. split; [exact Hb |].
  split; [exact Hr |].
  exact (escaper_Read_panics e p chunk ReadOk [] Hn 1 Byte.x22 Hl Hk Hb Hr).
Defined.

Lemma escaper_Read_returns_witness :
  let e := newEscaper [(Demo2.quoted, ReadOk)] in
  let p := Demo2.buffer 4 in
  let res := (mkEscaper [] [] false, escape (take 3 Demo2.quoted), 4%nat, ReadOk) in
  escaperRead e p = Some res /\
  old res.1.1.1 = [] /\ length res.1.1.2 = length p /\ (res.1.2 <= length p)%nat.
Proof.
  intros e p res.
  assert (escaperRead e p = Some res) as H by (vm_compute; reflexivity).
  split; [exact H |].
  exact (escaper_Read_returns e p _ _ _ _ H).
Defined.

Lemma hitlist_first_revision_witness :
  let ctx := run ["a.out"; "b.out"] in
  let rs := [entry ctx "main.go"; entry ctx "util.go"] in
  length rs = length rs /\
  hitlistRows1 rs rs (Some (Some 0)) =
    if decide (0 <= Z.of_nat (length rs))
    then Some (hitlistRow <$> take (Z.to_nat 0) (zip rs rs))
    else None.
Proof.
  intros ctx rs.
  split; [reflexivity |].
  exact (hitlist_first_revision rs rs (Some (Some 0)) eq_refl).
Defined.

Lemma main_go_same_counts_witness :
  let fps := ["a.out"; "b.out"] in
  let ctx0 := Rev0.mkContext 0 ∅ in
  Forall (resolves coverageRoot projRoot) (profilesOf fps) /\
  sameCounts ctx0 emptyContext /\
  match Rev0.ingestFiles ctx0 coverageRoot projRoot fps,
        ingestFiles emptyContext coverageRoot projRoot fps with
  | Some c0, Some c => sameCounts c0 c
  | None, None => True
  | _, _ => False
  end.
Proof.
  intros fps ctx0.
  assert (Forall (resolves coverageRoot projRoot) (profilesOf fps)) as Hok.
  { repeat apply Forall_cons_2; try apply Forall_nil_2;
      (eexists; vm_compute; reflexivity). }
  assert (sameCounts ctx0 emptyContext) as Hs.
  { intros rn. cbn. by rewrite !lookup_empty. }
  split; [exact Hok |]. split; [exact Hs |].
  exact (main_go_same_counts coverageRoot projRoot fps ctx0 emptyContext Hok Hs).
Defined.
End OnDemoMore.

(** ** The loop over the lines of a block *)

Lemma blockLoop_returns n k ln e c cnt :
  n = Z.to_nat (e - ln + 1) -> min_int <= ln -> e < max_int ->
  blockLoop (S n + k) ln e c cnt = Some (lineLoop n ln c cnt).
Proof.
  revert ln cnt. induction n as [|n IH]; intros ln cnt Hn Hlo Hhi.
  - cbn. destruct (Z.leb_spec ln e); [lia | done].
  - cbn [Nat.add blockLoop lineLoop].
    destruct (Z.leb_spec ln e); [|lia].
    rewrite wrap_small by (unfold min_int, max_int in *; lia).
    apply IH; lia.
Qed.

Lemma blockLoop_runs fuel ln e c cnt :
  min_int <= ln <= max_int -> max_int <= e ->
  blockLoop fuel ln e c cnt = None.
Proof.
  revert ln cnt. induction fuel as [|fuel IH]; intros ln cnt Hln He; [done |].
  cbn [blockLoop]. destruct (Z.leb_spec ln e); [|lia].
  apply IH; [apply wrap_range | done].
Qed.

(** X4. The loop over the lines of a block, run turn by turn with the
    [int] increment, agrees with [addBlock] on every block whose bounds
    are [int]s: when the block is empty or ends below the largest [int]
    the loop is left after finitely many turns with the counts [addBlock]
    gives, and when the block ends at the largest [int] the increment
    wraps around and the loop is never left. *)
Theorem block_loop_agrees cnt pb :
  min_int <= StartLine pb <= max_int -> min_int <= EndLine pb <= max_int ->
  match addBlock cnt pb with
  | Some cnt' =>
      exists fuel, forall k,
        blockLoop (fuel + k) (StartLine pb) (EndLine pb) (Count pb) cnt = Some cnt'
  | None =>
      EndLine pb = max_int /\
      forall fuel,
        blockLoop fuel (StartLine pb) (EndLine pb) (Count pb) cnt = None
  end.
Proof.
  intros Hs He. unfold addBlock. case_bool_decide as Hend.
  - split; [lia |]. intros fuel. apply blockLoop_runs; lia.
  - exists (S (Z.to_nat (EndLine pb - StartLine pb + 1))). intros k.
    apply blockLoop_returns; lia.
Qed.

Section OnDemoBlocks.
Lemma block_loop_agrees_witness :
  let pb := mkBlock 1 3 2 in
  let top := mkBlock (max_int - 1) max_int 2 in
  min_int <= StartLine pb <= max_int /\ min_int <= EndLine pb <= max_int /\
  min_int <= StartLine top <= max_int /\ min_int <= EndLine top <= max_int /\
  (exists fuel, forall k,
     blockLoop (fuel + k) 1 3 2 ∅ = Some (lineLoop 3 1 2 ∅)) /\
  (forall fuel, blockLoop fuel (max_int - 1) max_int 2 ∅ = None).
Proof.
  intros pb top.
  assert (min_int <= StartLine pb <= max_int) as H1 by (vm_compute; split; discriminate).
  assert (min_int <= EndLine pb <= max_int) as H2 by (vm_compute; split; discriminate).
  assert (min_int <= StartLine top <= max_int) as H3
    by (vm_compute; split; discriminate).
  assert (min_int <= EndLine top <= max_int) as H4 by (vm_compute; split; discriminate).
  split; [exact H1 |]. split; [exact H2 |]. split; [exact H3 |]. split; [exact H4 |].
  split.
  - exact (block_loop_agrees ∅ pb H1 H2).
  - exact (proj2 (block_loop_agrees ∅ top H3 H4)).
Defined.
End OnDemoBlocks.
